(** * Worker pool of kdnetwork/code-snippet (go/worker)

    A shallow embedding of [RunWorkerPool] (the context-aware version) and of
    [utils.Clamp], with the goroutines of one call modelled as an interleaving
    of atomic actions over the two buffered channels, followed by the
    properties of the pool proved over every interleaving.  The step function
    is executable: a schedule (a list of actions) can be run on concrete
    tasks, and the cancellation of the context is one of the actions. *)

From Stdlib Require Import ZArith Lia.
From stdpp Require Import gmap strings list pretty.

Local Open Scope Z_scope.

(** ** go/utils: [Clamp] *)

Module Utils.

(** [func Clamp[T cmp.Ordered](value, minValue, maxValue T) T], at [int]:
    [return min(max(value, minValue), maxValue)]. *)
Definition Clamp (value minValue maxValue : Z) : Z :=
  Z.min (Z.max value minValue) maxValue.

End Utils.

(** ** Go slices: a nil slice is distinct from an empty one *)

Inductive GoSlice (A : Type) : Type :=
| NilSlice
| Slice (l : list A).
Arguments NilSlice {A}.
Arguments Slice {A} l.

Definition elems {A} (s : GoSlice A) : list A :=
  match s with NilSlice => [] | Slice l => l end.

Definition is_nil {A} (s : GoSlice A) : bool :=
  match s with NilSlice => true | Slice _ => false end.

(** [len(s)], an [int]. *)
Definition len {A} (s : GoSlice A) : Z := Z.of_nat (length (elems s)).

(** ** The version without a context (sibling file of the package) *)

Module PlainPool.

(** [maxWorkers = min(max(maxWorkers, 1), tasksLen)] *)
Definition effective_workers (tasksLen maxWorkers : Z) : Z :=
  Z.min (Z.max maxWorkers 1) tasksLen.

End PlainPool.

(** ** The context-aware pool *)

Section Pool.

(** [T] the tasks, [K], [V] the keys and values of a worker's store, [E] the
    non-nil error values: a Go [error] is [None] (nil) or [Some e]. *)
Context {T K V E : Type} `{Countable K}.

(** [fn func(ctx, task T, store map[K]V) error].  The map is mutated in
    place by [fn]; here [fn] returns the store it leaves behind.  The
    boolean is what [fn] can see of [ctx]: whether [ctx.Done()] is closed. *)
Definition TaskFn : Type := bool → T → gmap K V → option E * gmap K V.

(** One call of [fn], as recorded by the instrumentation of the model. *)
Record Event : Type := mkEvent {
  ev_worker : nat;          (* which worker goroutine called fn *)
  ev_index : nat;           (* index of the task in [tasks] *)
  ev_task : T;
  ev_done : bool;           (* was ctx.Done() closed at the call *)
  ev_store_in : gmap K V;   (* the store handed to fn *)
  ev_err : option E;        (* the value fn returned *)
  ev_store_out : gmap K V   (* the store after fn returned *)
}.

(** A worker goroutine: at its [select], holding the value [fn] returned
    and about to send it on [errorsChan], or returned. *)
Inductive Worker : Type :=
| WSelect (store : gmap K V)
| WSend (e : option E) (store : gmap K V)
| WDone.

Definition is_done (w : Worker) : bool :=
  match w with WDone => true | _ => false end.

Definition worker_store (w : Worker) : option (gmap K V) :=
  match w with WSelect st | WSend _ st => Some st | WDone => None end.

Definition sending (w : Worker) : list (option E) :=
  match w with WSend e _ => [e] | _ => [] end.

(** The state of one call of [RunWorkerPool] after the goroutines have been
    spawned.  Tasks travel through [tasksChan] together with their index in
    [tasks]; the index and [log] are instrumentation. *)
Record Pool : Type := mkPool {
  ctx_done : bool;                   (* ctx.Done() is closed *)
  d_next : nat;                      (* dispatcher: index of the next task *)
  tasksChan : list (nat * T);        (* buffer of tasksChan, oldest first *)
  tasksChan_closed : bool;
  workers : list Worker;
  errorsChan : list (option E);      (* buffer of errorsChan, oldest first *)
  errorsChan_closed : bool;
  errs : list (option E);            (* the collector's errs *)
  log : list Event;                  (* calls of fn, oldest first *)
  panicked : bool                    (* a goroutine panicked *)
}.

Definition set_ctx_done (s : Pool) : Pool :=
  mkPool true (d_next s) (tasksChan s) (tasksChan_closed s) (workers s)
         (errorsChan s) (errorsChan_closed s) (errs s) (log s) (panicked s).

Definition set_dispatch (s : Pool) (n : nat) (q : list (nat * T)) : Pool :=
  mkPool (ctx_done s) n q (tasksChan_closed s) (workers s)
         (errorsChan s) (errorsChan_closed s) (errs s) (log s) (panicked s).

Definition close_tasksChan (s : Pool) : Pool :=
  mkPool (ctx_done s) (d_next s) (tasksChan s) true (workers s)
         (errorsChan s) (errorsChan_closed s) (errs s) (log s) (panicked s).

Definition set_worker (s : Pool) (w : nat) (x : Worker) : Pool :=
  mkPool (ctx_done s) (d_next s) (tasksChan s) (tasksChan_closed s)
         (<[w := x]> (workers s))
         (errorsChan s) (errorsChan_closed s) (errs s) (log s) (panicked s).

Definition set_tasksChan (s : Pool) (q : list (nat * T)) : Pool :=
  set_dispatch s (d_next s) q.

Definition add_log (s : Pool) (ev : Event) : Pool :=
  mkPool (ctx_done s) (d_next s) (tasksChan s) (tasksChan_closed s) (workers s)
         (errorsChan s) (errorsChan_closed s) (errs s) (log s ++ [ev]) (panicked s).

Definition set_errorsChan (s : Pool) (q : list (option E)) : Pool :=
  mkPool (ctx_done s) (d_next s) (tasksChan s) (tasksChan_closed s) (workers s)
         q (errorsChan_closed s) (errs s) (log s) (panicked s).

Definition close_errorsChan (s : Pool) : Pool :=
  mkPool (ctx_done s) (d_next s) (tasksChan s) (tasksChan_closed s) (workers s)
         (errorsChan s) true (errs s) (log s) (panicked s).

Definition append_errs (s : Pool) (e : option E) : Pool :=
  mkPool (ctx_done s) (d_next s) (tasksChan s) (tasksChan_closed s) (workers s)
         (errorsChan s) (errorsChan_closed s) (errs s ++ [e]) (log s) (panicked s).

Definition set_panicked (s : Pool) : Pool :=
  mkPool (ctx_done s) (d_next s) (tasksChan s) (tasksChan_closed s) (workers s)
         (errorsChan s) (errorsChan_closed s) (errs s) (log s) true.

(** The atomic actions of the goroutines of one call, and of the caller's
    cancel function. *)
Inductive Action : Type :=
| ACancel                (* ctx is cancelled: ctx.Done() becomes closed *)
| ADispatchSend          (* dispatcher select: case tasksChan <- task *)
| ADispatchCtx           (* dispatcher select: case <-ctx.Done(): return *)
| ADispatchEnd           (* dispatcher: range over tasks is exhausted *)
| AWorkerCtx (w : nat)   (* worker select: case <-ctx.Done(): return *)
| AWorkerRecv (w : nat)  (* worker select: case task, ok := <-tasksChan *)
| AWorkerSend (w : nat)  (* worker: errorsChan <- (what fn returned) *)
| AWaitClose             (* wg.Wait() returns; close(errorsChan) *)
| ACollect.              (* errs = append(errs, <-errorsChan) *)

Definition is_cancel (a : Action) : bool :=
  match a with ACancel => true | _ => false end.

Section Step.

(** The slice of tasks and [fn] ([None] is a nil func) of the call. *)
Variable tasks : list T.
Variable fn : option TaskFn.

(** Both channels are made with capacity [tasksLen]. *)
Definition cap : nat := length tasks.

(** One action; [None] when the action is not enabled (the goroutine is
    blocked or is not at that point).  A [select] with several ready
    cases takes any of them, so both of its actions are enabled then.
    - [AWorkerRecv w] with a task in the queue receives it and calls [fn] in
      one action: the call touches only the worker's own store and reads
      [ctx], so a cancellation between the receive and the call is the same
      run as a cancellation just before a [select] that takes the queue
      branch.  [fn] is taken to return; calling a nil [fn] panics.
    - A send blocks while the buffer is full; a send on a closed channel
      panics.
    - A receive takes the oldest buffered value, and the zero value once the
      channel is closed and drained.
    - [wg.Wait()] returns once every worker goroutine has returned. *)
Definition step (a : Action) (s : Pool) : option Pool :=
  if panicked s then None else
  match a with
  | ACancel =>
      if ctx_done s then None else Some (set_ctx_done s)
  | ADispatchSend =>
      if tasksChan_closed s then None else
      match tasks !! d_next s with
      | Some t =>
          if bool_decide (length (tasksChan s) < cap)%nat
          then Some (set_dispatch s (S (d_next s)) (tasksChan s ++ [(d_next s, t)]))
          else None
      | None => None
      end
  | ADispatchCtx =>
      if tasksChan_closed s then None else
      match tasks !! d_next s with
      | Some _ => if ctx_done s then Some (close_tasksChan s) else None
      | None => None
      end
  | ADispatchEnd =>
      if tasksChan_closed s then None else
      match tasks !! d_next s with
      | Some _ => None
      | None => Some (close_tasksChan s)
      end
  | AWorkerCtx w =>
      match workers s !! w with
      | Some (WSelect _) =>
          if ctx_done s then Some (set_worker s w WDone) else None
      | _ => None
      end
  | AWorkerRecv w =>
      match workers s !! w with
      | Some (WSelect st) =>
          match tasksChan s with
          | (i, t) :: q =>
              match fn with
              | Some f =>
                  let r := f (ctx_done s) t st in
                  Some (add_log
                          (set_worker (set_tasksChan s q) w (WSend r.1 r.2))
                          (mkEvent w i t (ctx_done s) st r.1 r.2))
              | None => Some (set_panicked (set_tasksChan s q))
              end
          | [] =>
              if tasksChan_closed s then Some (set_worker s w WDone) else None
          end
      | _ => None
      end
  | AWorkerSend w =>
      match workers s !! w with
      | Some (WSend e st) =>
          if errorsChan_closed s then Some (set_panicked s)
          else if bool_decide (length (errorsChan s) < cap)%nat
          then Some (set_worker (set_errorsChan s (errorsChan s ++ [e])) w (WSelect st))
          else None
      | _ => None
      end
  | AWaitClose =>
      if errorsChan_closed s then None
      else if forallb is_done (workers s) then Some (close_errorsChan s)
      else None
  | ACollect =>
      if bool_decide (length (errs s) < length tasks)%nat then
        match errorsChan s with
        | e :: q => Some (append_errs (set_errorsChan s q) e)
        | [] => if errorsChan_closed s then Some (append_errs s None) else None
        end
      else None
  end.

(** A schedule is a list of actions; [exec] runs it. *)
Fixpoint exec (acts : list Action) (s : Pool) : option Pool :=
  match acts with
  | [] => Some s
  | a :: rest =>
      match step a s with
      | Some s' => exec rest s'
      | None => None
      end
  end.

(** The collector's loop [for range tasks] is over: the call returns
    [errs], a slice made by [make]. *)
Definition result (s : Pool) : option (GoSlice (option E)) :=
  if bool_decide (length (errs s) = length tasks) then Some (Slice (errs s))
  else None.

End Step.

(** [maxWorkers = utils.Clamp(tasksLen, 1, maxWorkers)] *)
Definition effective_workers (tasksLen maxWorkers : Z) : Z :=
  Utils.Clamp tasksLen 1 maxWorkers.

(** [for range n] over an [int] runs [n] times, and not at all for
    [n <= 0]. *)
Definition range_count (n : Z) : nat := Z.to_nat n.

(** The state once the goroutines are spawned: every worker has made its
    own empty store; [ctx0] tells whether [ctx] was cancelled already. *)
Definition spawn (ctx0 : bool) (tasks : list T) (maxWorkers : Z) : Pool :=
  mkPool ctx0 0 [] false
         (replicate (range_count (effective_workers (Z.of_nat (length tasks)) maxWorkers))
                    (WSelect ∅))
         [] false [] [] false.

(** What a call does: return at once, or run the goroutines. *)
Inductive Run : Type :=
| Returned (r : GoSlice (option E))
| Running (s : Pool).

Definition RunWorkerPool (ctx0 : bool) (tasks : GoSlice T) (maxWorkers : Z)
    (fn : option TaskFn) : Run :=
  let tasksLen := len tasks in
  if (tasksLen =? 0)%Z then Returned (Slice [])
  else Running (spawn ctx0 (elems tasks) maxWorkers).

(** The calls of [fn] made by a call of the pool under a schedule. *)
Definition run_log (r : Run) (tasks : list T) (fn : option TaskFn)
    (acts : list Action) : option (list Event) :=
  match r with
  | Returned _ => Some []
  | Running s0 => log <$> exec tasks fn acts s0
  end.

(** *** Bookkeeping used by the proofs *)

(** The tasks with their indices, in submission order. *)
Definition indexed (tasks : list T) : list (nat * T) :=
  zip (seq 0 (length tasks)) tasks.

Definition ev_key (ev : Event) : nat * T := (ev_index ev, ev_task ev).

(** The calls of [fn] made by worker [w]. *)
Definition worker_log (w : nat) (l : list Event) : list Event :=
  filter (λ ev, ev_worker ev = w) l.

(** Every call in [l] was handed the store the call before it left, the
    first one [st], and recorded what [f] returned on it. *)
Fixpoint chain (f : TaskFn) (st : gmap K V) (l : list Event) : Prop :=
  match l with
  | [] => True
  | ev :: rest =>
      ev_store_in ev = st ∧
      f (ev_done ev) (ev_task ev) st = (ev_err ev, ev_store_out ev) ∧
      chain f (ev_store_out ev) rest
  end.

Definition final_store (st : gmap K V) (l : list Event) : gmap K V :=
  foldl (λ _ ev, ev_store_out ev) st l.

(** The values held by workers that are about to send. *)
Definition in_flight (ws : list Worker) : list (option E) :=
  concat (sending <$> ws).

Definition worker_weight (w : Worker) : nat :=
  match w with WSelect _ => 1 | WSend _ _ => 2 | WDone => 0 end.

Definition flag (b : bool) : nat := if b then 0 else 1.

(** A bound on the number of actions still to come. *)
Definition measure (tasks : list T) (s : Pool) : nat :=
  (flag (ctx_done s) + 3 * (length tasks - d_next s) + flag (tasksChan_closed s)
   + 2 * length (tasksChan s) + sum_list (worker_weight <$> workers s)
   + flag (errorsChan_closed s) + (length tasks - length (errs s))
   + flag (panicked s))%nat.

(** What [errs] is made of: the values received from [errorsChan], then the
    zero values read once it is closed and drained.  [R] compares the
    values sent so far with the values [fn] returned. *)
Definition outcomes (R : relation (list (option E))) (s : Pool) : Prop :=
  ∃ (reals : list (option E)) (pad : nat),
    errs s = reals ++ replicate pad None ∧
    (pad ≠ 0%nat → errorsChan s = [] ∧ errorsChan_closed s = true) ∧
    R (reals ++ errorsChan s ++ in_flight (workers s)) (ev_err <$> log s).

(** The invariant of the pool. *)
Record Inv (tasks : list T) (s : Pool) : Prop := mkInv {
  inv_log : ev_key <$> log s = take (length (log s)) (indexed tasks);
  inv_log_len : (length (log s) ≤ d_next s)%nat;
  inv_next : (d_next s ≤ length tasks)%nat;
  inv_errs : (length (errs s) ≤ length tasks)%nat;
  inv_queue : panicked s = false →
    tasksChan s = drop (length (log s)) (take (d_next s) (indexed tasks));
  inv_closed : panicked s = false →
    errorsChan_closed s = true → forallb is_done (workers s) = true;
  inv_outcomes : panicked s = false → outcomes (≡ₚ) s
}.

(** With a function for [fn], no goroutine panics, and each worker threads
    its own store through its calls. *)
Record InvFn (f : TaskFn) (s : Pool) : Prop := mkInvFn {
  inv_no_panic : panicked s = false;
  inv_chain : ∀ w x, workers s !! w = Some x →
    chain f ∅ (worker_log w (log s)) ∧
    ∀ st, worker_store x = Some st → st = final_store ∅ (worker_log w (log s));
  inv_who : ∀ ev, ev ∈ log s → (ev_worker ev < length (workers s))%nat
}.

(** While [ctx] is not cancelled, the queue is closed only once every task
    was sent, and a worker returns only once the queue is closed and
    drained. *)
Record InvNoCancel (tasks : list T) (s : Pool) : Prop := mkInvNoCancel {
  inv_nc_ctx : ctx_done s = false;
  inv_nc_closed : tasksChan_closed s = true → d_next s = length tasks;
  inv_nc_done : ∀ w, workers s !! w = Some WDone →
    tasksChan_closed s = true ∧ tasksChan s = [];
  inv_nc_log : Forall (λ ev, ev_done ev = false) (log s)
}.

(** With one worker the outcomes keep the order of the calls. *)
Definition InvOne (s : Pool) : Prop :=
  panicked s = false → outcomes eq s.

(** [fn] called on the tasks one after the other by a single worker whose
    context is never cancelled: the values it returns. *)
Fixpoint seq_errs (f : TaskFn) (st : gmap K V) (ts : list T) : list (option E) :=
  match ts with
  | [] => []
  | t :: rest => (f false t st).1 :: seq_errs f (f false t st).2 rest
  end.

(** C9 as the specification words it: once the signal has fired, no
    worker starts a task. *)
Definition no_start_after_cancel (tasks : list T) (fn : option TaskFn)
    (s0 : Pool) : Prop :=
  ∀ acts s w s',
    exec tasks fn acts s0 = Some s → ctx_done s = true →
    step tasks fn (AWorkerRecv w) s = Some s' → log s' = log s.

End Pool.

Arguments TaskFn : clear implicits.
Arguments TaskFn T K V E {_ _}.

(** ** The task functions of the package's tests *)

(** Go's [int] addition wraps around at 64 bits. *)
Definition wrap64 (x : Z) : Z := (x + 2 ^ 63) `mod` 2 ^ 64 - 2 ^ 63.

(** A read of a missing key of a [map[K]int] gives 0. *)
Definition store_get `{Countable K} (st : gmap K Z) (k : K) : Z :=
  default 0 (st !! k).

(** [store[k] += 1] *)
Definition store_incr `{Countable K} (st : gmap K Z) (k : K) : gmap K Z :=
  <[k := wrap64 (store_get st k + 1)]> st.

(** TaskCompletionAndErrorCounting: [if task%2 == 0 { return fmt.Errorf(...) }] *)
Definition fn_even : TaskFn Z string Z string :=
  λ _ task store,
    (if (Z.rem task 2 =? 0)%Z then Some ("error-on-" +:+ pretty task) else None, store).

(** WorkerStorePersistence: [store["sum"] += 1], then the last task checks
    that it reads 3. *)
Definition fn_sum : TaskFn string string Z string :=
  λ _ task store,
    let store' := store_incr store "sum" in
    (if bool_decide (task = "c") && negb (store_get store' "sum" =? 3)%Z
     then Some "persistence-failed" else None, store').

(** ** The pool without a context *)

Module Plain.

Section Defs.

Context {T K V E : Type} `{Countable K}.

(** [fn func(task *T, store map[K]V) error]; [T] stands for the pointers. *)
Definition Fn : Type := T → gmap K V → option E * gmap K V.

(** The same function as one of the context-aware pool that does not look
    at its context. *)
Definition lift (fn : option Fn) : option (TaskFn T K V E) :=
  (λ f, (λ _ : bool, f)) <$> fn.

Variable tasks : list T.
Variable fn : option Fn.

(** The goroutines are the workers and the caller itself, which sends every
    task ([ADispatchSend]), closes the queue ([ADispatchEnd]) and only then
    reads the outcomes ([ACollect]).  A worker ranges over the queue:
    [AWorkerRecv] takes a task and calls [fn], or ends the loop once the
    queue is closed and drained; [AWorkerSend] sends what [fn] returned.
    [errorsChan] is never closed and there is no cancellation. *)
Definition step (a : Action) (s : Pool) : option (@Pool T K V E _ _) :=
  if panicked s then None else
  match a with
  | ADispatchSend =>
      if tasksChan_closed s then None else
      match tasks !! d_next s with
      | Some t =>
          if bool_decide (length (tasksChan s) < cap tasks)%nat
          then Some (set_dispatch s (S (d_next s)) (tasksChan s ++ [(d_next s, t)]))
          else None
      | None => None
      end
  | ADispatchEnd =>
      if tasksChan_closed s then None else
      match tasks !! d_next s with
      | Some _ => None
      | None => Some (close_tasksChan s)
      end
  | AWorkerRecv w =>
      match workers s !! w with
      | Some (WSelect st) =>
          match tasksChan s with
          | (i, t) :: q =>
              match fn with
              | Some f =>
                  let r := f t st in
                  Some (add_log
                          (set_worker (set_tasksChan s q) w (WSend r.1 r.2))
                          (mkEvent w i t false st r.1 r.2))
              | None => Some (set_panicked (set_tasksChan s q))
              end
          | [] =>
              if tasksChan_closed s then Some (set_worker s w WDone) else None
          end
      | _ => None
      end
  | AWorkerSend w =>
      match workers s !! w with
      | Some (WSend e st) =>
          if bool_decide (length (errorsChan s) < cap tasks)%nat
          then Some (set_worker (set_errorsChan s (errorsChan s ++ [e])) w (WSelect st))
          else None
      | _ => None
      end
  | ACollect =>
      if tasksChan_closed s then
        if bool_decide (length (errs s) < length tasks)%nat then
          match errorsChan s with
          | e :: q => Some (append_errs (set_errorsChan s q) e)
          | [] => None
          end
        else None
      else None
  | ACancel | ADispatchCtx | AWorkerCtx _ | AWaitClose => None
  end.

Fixpoint exec (acts : list Action) (s : Pool) : option Pool :=
  match acts with
  | [] => Some s
  | a :: rest =>
      match step a s with
      | Some s' => exec rest s'
      | None => None
      end
  end.

End Defs.

Section Entry.

Context {T K V E : Type} `{Countable K}.

(** The state once the workers are spawned, each with its own empty store:
    [maxWorkers = min(max(maxWorkers, 1), tasksLen)] of them. *)
Definition spawn (tasks : list T) (maxWorkers : Z) : @Pool T K V E _ _ :=
  mkPool false 0 [] false
         (replicate
            (range_count (PlainPool.effective_workers (Z.of_nat (length tasks)) maxWorkers))
            (WSelect ∅))
         [] false [] [] false.

Definition RunWorkerPool (tasks : GoSlice T) (maxWorkers : Z)
    (fn : option (@Fn T K V E _ _)) : @Run T K V E _ _ :=
  let tasksLen := len tasks in
  if (tasksLen =? 0)%Z then Returned (Slice [])
  else Running (spawn (elems tasks) maxWorkers).

End Entry.

End Plain.

(** WorkerStorePersistence, for the pool without a context. *)
Definition plain_fn_sum : @Plain.Fn string string Z string _ _ :=
  fn_sum false.

Definition plain_schedule_abc : list Action :=
  [ADispatchSend; ADispatchSend; ADispatchSend; ADispatchEnd;
   AWorkerRecv 0; AWorkerSend 0; AWorkerRecv 0; AWorkerSend 0;
   AWorkerRecv 0; AWorkerSend 0; ACollect; ACollect; ACollect; AWorkerRecv 0].

(** The task lists of the tests. *)
Definition tasks_1_10 : list Z := [1; 2; 3; 4; 5; 6; 7; 8; 9; 10].

Definition tasks_abc : list string := ["a"; "b"; "c"]%string.

(** One worker, no cancellation: the dispatcher sends the three tasks and
    closes the queue, the worker handles them and returns, the outcome
    channel is closed and the collector reads the three outcomes. *)
Definition schedule_abc : list Action :=
  [ADispatchSend; ADispatchSend; ADispatchSend; ADispatchEnd;
   AWorkerRecv 0; AWorkerSend 0; AWorkerRecv 0; AWorkerSend 0;
   AWorkerRecv 0; AWorkerSend 0; AWorkerRecv 0; AWaitClose;
   ACollect; ACollect; ACollect].


(** One worker: two tasks are queued, the first is handled, and then the
    context is cancelled. *)
Definition schedule_cancel : list Action :=
  [ADispatchSend; ADispatchSend; AWorkerRecv 0; AWorkerSend 0; ACancel].

(** One worker has taken the first task and holds its outcome while the
    dispatcher still has tasks to send. *)
Definition schedule_busy : list Action := [ADispatchSend; AWorkerRecv 0].

(** After [schedule_cancel]: the dispatcher and the worker take their
    ctx.Done() branches, the outcome channel is closed and the collector
    reads the outcome of the first task and two zero values. *)
Definition schedule_cancel_return : list Action :=
  schedule_cancel
  ++ [ADispatchCtx; AWorkerCtx 0; AWaitClose; ACollect; ACollect; ACollect].

(** One worker, no cancellation: the collector has read the three outcomes
    while the worker has not yet seen the closed queue. *)
Definition schedule_early_return : list Action :=
  [ADispatchSend; ADispatchSend; ADispatchSend; ADispatchEnd;
   AWorkerRecv 0; AWorkerSend 0; AWorkerRecv 0; AWorkerSend 0;
   AWorkerRecv 0; AWorkerSend 0; ACollect; ACollect; ACollect].

(** Three workers on ten tasks: two tasks are handled, then the context is
    cancelled and everything winds down. *)
Definition schedule_cancel_1_10 : list Action :=
  [ADispatchSend; ADispatchSend; AWorkerRecv 0; AWorkerRecv 1;
   AWorkerSend 1; AWorkerSend 0; ACancel; ADispatchCtx;
   AWorkerCtx 0; AWorkerCtx 1; AWorkerCtx 2; AWaitClose]
  ++ replicate 10 ACollect.

(** ** Every schedule is finite *)

Section PoolFacts.

Context {T K V E : Type} `{Countable K}.

Implicit Types (tasks : list T) (fn : option (TaskFn T K V E))
  (f : TaskFn T K V E) (s : @Pool T K V E _ _) (a : @Action)
  (ws : list (@Worker K V E _ _)) (st : gmap K V)
  (ev : @Event T K V E _ _) (l : list (@Event T K V E _ _)).

Ltac step_cases Hstep :=
  unfold step in Hstep;
  repeat match type of Hstep with
         | context [match ?x with _ => _ end] => destruct x eqn:?
         end;
  simplify_eq;
  repeat match goal with
         | Hb : bool_decide _ = true |- _ => apply bool_decide_eq_true_1 in Hb
         | Hb : bool_decide _ = false |- _ => apply bool_decide_eq_false_1 in Hb
         end.

Lemma sum_weight_insert ws w (x y : @Worker K V E _ _) :
  ws !! w = Some x →
  (sum_list (worker_weight <$> <[w := y]> ws) + worker_weight x
   = sum_list (worker_weight <$> ws) + worker_weight y)%nat.
Proof.
  revert w. induction ws as [|z ws IH]; intros [|w] Hw; simplify_eq/=; [lia|].
  specialize (IH _ Hw). lia.
Qed.

Lemma step_measure tasks fn a s s' :
  step tasks fn a s = Some s' → (measure tasks s' < measure tasks s)%nat.
Proof.
  intros Hstep. step_cases Hstep; unfold measure, flag; simpl;
    repeat match goal with
           | Hw : workers _ !! _ = Some _ |- context [<[_ := ?y]> (workers _)] =>
               pose proof (sum_weight_insert _ _ _ y Hw); clear Hw
           | Hl : _ !! _ = Some _ |- _ => apply lookup_lt_Some in Hl
           | Hq : tasksChan _ = _ |- _ => rewrite Hq
           | Hq : errorsChan _ = _ |- _ => rewrite Hq
           | Hq : _ = true |- _ => rewrite Hq
           | Hq : _ = false |- _ => rewrite Hq
           end;
    simpl in *; rewrite ?length_app; simpl; try lia.
Qed.

Lemma exec_measure tasks fn acts s s' :
  exec tasks fn acts s = Some s' →
  (length acts + measure tasks s' ≤ measure tasks s)%nat.
Proof.
  revert s. induction acts as [|a acts IH]; intros s Hex; simplify_eq/=; [lia|].
  destruct (step tasks fn a s) as [s1|] eqn:Hstep; [|done].
  apply step_measure in Hstep. apply IH in Hex. lia.
Qed.

Lemma exec_app tasks fn acts1 acts2 s :
  exec tasks fn (acts1 ++ acts2) s
  = exec tasks fn acts1 s ≫= exec tasks fn acts2.
Proof.
  revert s. induction acts1 as [|a acts1 IH]; intros s; simpl; [done|].
  destruct (step tasks fn a s); simpl; [apply IH|done].
Qed.

(** An invariant of [step] holds along every schedule. *)
Lemma exec_invariant tasks fn (P : Pool → Prop) :
  (∀ a s s', P s → step tasks fn a s = Some s' → P s') →
  ∀ acts s s', P s → exec tasks fn acts s = Some s' → P s'.
Proof.
  intros Hstep acts. induction acts as [|a acts IH]; intros s s' HP Hex; simplify_eq/=; [done|].
  destruct (step tasks fn a s) as [s1|] eqn:Hs; [|done]. eauto.
Qed.

(** ** The queue of tasks *)

Lemma length_indexed tasks : length (indexed tasks) = length tasks.
Proof. unfold indexed. rewrite length_zip, length_seq. lia. Qed.

Lemma lookup_indexed tasks i p :
  indexed tasks !! i = Some p ↔ ∃ t, p = (i, t) ∧ tasks !! i = Some t.
Proof.
  unfold indexed. destruct p as [j t]. rewrite lookup_zip_Some, lookup_seq. split.
  - intros [[-> _] Ht]. eauto.
  - intros (t' & [= -> ->] & Ht). split_and!; [done| |done]. by apply lookup_lt_Some in Ht.
Qed.

Lemma queue_push tasks lo hi t :
  (lo ≤ hi)%nat → tasks !! hi = Some t →
  drop lo (take (S hi) (indexed tasks)) = drop lo (take hi (indexed tasks)) ++ [(hi, t)].
Proof.
  intros Had Ht. rewrite (take_S_r _ _ (hi, t)).
  - rewrite drop_app_le; [done|]. rewrite length_take, length_indexed.
    apply lookup_lt_Some in Ht. lia.
  - apply lookup_indexed. eauto.
Qed.

Lemma queue_pop tasks lo hi i t q :
  drop lo (take hi (indexed tasks)) = (i, t) :: q →
  i = lo ∧ tasks !! lo = Some t ∧ (lo < hi)%nat ∧
  q = drop (S lo) (take hi (indexed tasks)).
Proof.
  intros Hq.
  assert (take hi (indexed tasks) !! lo = Some (i, t)) as Hl.
  { pose proof (lookup_drop (take hi (indexed tasks)) lo 0) as Hd.
    rewrite Hq, Nat.add_0_r in Hd. done. }
  rewrite (drop_S _ _ _ Hl) in Hq. apply lookup_take_Some in Hl as [Hl Hlt].
  apply lookup_indexed in Hl as (t' & [= -> ->] & Ht). by simplify_eq.
Qed.

Lemma queue_length tasks lo hi :
  (hi ≤ length tasks)%nat →
  length (drop lo (take hi (indexed tasks))) = (hi - lo)%nat.
Proof. intros. rewrite length_drop, length_take, length_indexed. lia. Qed.

(** ** The values in flight *)

Lemma in_flight_insert ws w (x y : @Worker K V E _ _) :
  ws !! w = Some x →
  in_flight (<[w := y]> ws) ++ sending x ≡ₚ in_flight ws ++ sending y.
Proof.
  unfold in_flight. revert w.
  induction ws as [|z ws IH]; intros [|w] Hw; simplify_eq/=.
  - rewrite (comm (++) (sending y)), (comm (++) (sending x)).
    rewrite <- !(assoc (++)). f_equiv. apply Permutation_app_comm.
  - rewrite <- !(assoc (++)). f_equiv. by apply IH.
Qed.

Lemma all_done_lookup ws w (x : @Worker K V E _ _) :
  forallb is_done ws = true → ws !! w = Some x → x = WDone.
Proof.
  intros Hall Hw. apply list_elem_of_lookup_2 in Hw.
  rewrite forallb_forall in Hall. apply list_elem_of_In, Hall in Hw.
  by destruct x.
Qed.

Lemma all_done_in_flight ws : forallb is_done ws = true → in_flight ws = [].
Proof.
  unfold in_flight. induction ws as [|x ws IH]; simpl; [done|].
  intros [Hx Hws]%andb_true_iff. destruct x; simplify_eq/=. by apply IH.
Qed.

Lemma all_done_insert ws w :
  forallb is_done ws = true → forallb is_done (<[w := WDone]> ws) = true.
Proof.
  revert w. induction ws as [|x ws IH]; intros [|w]; simpl; try done.
  - by intros [_ ?]%andb_true_iff.
  - intros [-> ?]%andb_true_iff. simpl. by apply IH.
Qed.

(** ** The invariant holds along every schedule *)

Lemma step_not_panicked tasks fn a s s' :
  step tasks fn a s = Some s' → panicked s = false.
Proof. unfold step. by destruct (panicked s). Qed.

Lemma in_flight_insert_nil ws w (x y : @Worker K V E _ _) :
  ws !! w = Some x → sending x = [] → sending y = [] →
  in_flight (<[w := y]> ws) ≡ₚ in_flight ws.
Proof.
  intros Hw Hx Hy. pose proof (in_flight_insert _ _ _ y Hw) as Hperm.
  by rewrite Hx, Hy, !app_nil_r in Hperm.
Qed.

Lemma outcomes_perm_step tasks fn a s s' :
  outcomes (≡ₚ) s →
  (errorsChan_closed s = true → forallb is_done (workers s) = true) →
  step tasks fn a s = Some s' → panicked s' = false →
  outcomes (≡ₚ) s'.
Proof.
  intros (reals & pad & He & Hpad & HR) Hcl Hstep Hp'.
  destruct a; step_cases Hstep; simpl in *; try done;
    try (by exists reals, pad).
  - (* a worker returns on ctx.Done() *)
    exists reals, pad. split_and!; [done..|]. simpl.
    by rewrite (in_flight_insert_nil _ _ (WSelect store) WDone).
  - (* a worker returns on the closed queue *)
    exists reals, pad. split_and!; [done..|]. simpl.
    by rewrite (in_flight_insert_nil _ _ (WSelect store) WDone).
  - (* a worker calls fn *)
    exists reals, pad. split_and!; [done..|]. simpl.
    match goal with
    | Hw : workers s !! _ = Some _ |- context [<[_ := ?y]> (workers s)] =>
        pose proof (in_flight_insert _ _ _ y Hw) as Hperm
    end.
    simpl in Hperm. rewrite app_nil_r in Hperm. rewrite fmap_app, Hperm. simpl.
    by rewrite <- HR, <- !(assoc (++)).
  - (* a worker sends *)
    exists reals, pad. split_and!; [done| |]; simpl.
    + intros Hpad'. destruct (Hpad Hpad') as [_ ?]. congruence.
    + match goal with
      | Hw : workers s !! _ = Some _ |- context [<[_ := ?y]> (workers s)] =>
          pose proof (in_flight_insert _ _ _ y Hw) as Hperm
      end.
      simpl in Hperm. rewrite app_nil_r in Hperm.
      etrans; [|exact HR]. rewrite <- Hperm, <- !(assoc (++)).
      do 2 f_equiv. simpl. apply Permutation_cons_append.
  - (* errorsChan is closed *)
    exists reals, pad. split_and!; [done| |done]; simpl.
    intros Hpad'. destruct (Hpad Hpad') as [_ ?]. congruence.
  - (* the collector reads a zero value *)
    exists reals, (S pad). split_and!; [|done|].
    + by rewrite replicate_S_end, (assoc (++)), <- He.
    + simpl. by repeat match goal with Hc : errorsChan s = _ |- _ => rewrite Hc end.
  - (* the collector receives a value *)
    destruct pad as [|pad]; [|by destruct Hpad as [? _]].
    match goal with
    | Hc : errorsChan s = ?o :: _ |- _ =>
        exists (reals ++ [o]), 0%nat; simpl in *; rewrite app_nil_r in *;
        split_and!; [by rewrite He|done|]; by rewrite <- HR, <- !(assoc (++))
    end.
Qed.

Lemma Inv_step tasks fn a s s' :
  Inv tasks s → step tasks fn a s = Some s' → Inv tasks s'.
Proof.
  intros [Hlog Hlen Hnext Herrs Hq Hcl Hout] Hstep.
  pose proof (step_not_panicked _ _ _ _ _ Hstep) as Hp.
  specialize (Hq Hp). specialize (Hcl Hp). specialize (Hout Hp).
  split; [..|intros; by eapply outcomes_perm_step]; clear Hout;
  destruct a; step_cases Hstep; simpl; try done; try lia; try (intros _);
    try done;
    try match goal with
        | Hw : workers s !! _ = Some _ |- errorsChan_closed s = true → _ =>
            let Hc := fresh in
            intros Hc; specialize (Hcl Hc);
            pose proof (all_done_lookup _ _ _ Hcl Hw); simplify_eq;
            by apply all_done_insert
        end.
  all: rewrite ?length_app; simpl;
    try match goal with
        | Hl : _ !! d_next _ = Some _ |- _ => pose proof (lookup_lt_Some _ _ _ Hl)
        end;
    try match goal with
        | Hpop : _ :: _ = drop _ _ |- _ =>
            symmetry in Hpop; apply queue_pop in Hpop as (-> & Ht & Hlt & ->)
        end;
    try lia; try congruence; try (intros; by auto).
  - rewrite fmap_app, Hlog, Nat.add_1_r. simpl. symmetry.
    apply take_S_r, lookup_indexed. eauto.
  - rewrite Hq. symmetry. by apply queue_push.
  - by rewrite Nat.add_1_r.
Qed.


Lemma exec_Inv tasks fn acts s s' :
  Inv tasks s → exec tasks fn acts s = Some s' → Inv tasks s'.
Proof. apply exec_invariant. intros a s1 s2. apply Inv_step. Qed.

Lemma in_flight_replicate n (st : gmap K V) :
  in_flight (E:=E) (replicate n (WSelect st)) = [].
Proof. unfold in_flight. induction n as [|n IH]; simpl; done. Qed.

Lemma Inv_spawn ctx0 tasks maxWorkers :
  Inv tasks (spawn (K:=K) (V:=V) (E:=E) ctx0 tasks maxWorkers).
Proof.
  split; simpl; try done; try lia.
  intros _. exists [], 0%nat. simpl. by rewrite in_flight_replicate.
Qed.

(** ** Each worker threads its own store through its calls *)

Lemma chain_snoc f st l ev :
  chain f st (l ++ [ev]) ↔
  chain f st l ∧ ev_store_in ev = final_store st l ∧
  f (ev_done ev) (ev_task ev) (final_store st l) = (ev_err ev, ev_store_out ev).
Proof.
  revert st. induction l as [|ev' l IH]; intros st; simpl.
  - unfold final_store. simpl. split.
    + intros (<- & ? & _). done.
    + intros (_ & -> & ?). done.
  - rewrite IH. unfold final_store. simpl. split.
    + intros (-> & ? & ? & ? & ?). done.
    + intros ((-> & ? & ?) & ? & ?). done.
Qed.

Lemma final_store_snoc st l ev :
  final_store st (l ++ [ev]) = ev_store_out ev.
Proof. unfold final_store. by rewrite foldl_snoc. Qed.

Lemma worker_log_snoc w l ev :
  worker_log w (l ++ [ev])
  = if decide (ev_worker ev = w) then worker_log w l ++ [ev] else worker_log w l.
Proof.
  unfold worker_log. rewrite filter_app, filter_cons, filter_nil.
  case_decide; [done|by rewrite app_nil_r].
Qed.

Lemma InvFn_step tasks f a s s' :
  Inv tasks s → InvFn f s → step tasks (Some f) a s = Some s' → InvFn f s'.
Proof.
  intros HI [Hp Hch Hwho] Hstep.
  pose proof (inv_closed _ _ HI Hp) as Hcl.
  destruct a; step_cases Hstep; split; simpl; try done;
    try (match goal with
         | Hw : workers s !! _ = Some (WSend _ _) |- _ =>
             pose proof (all_done_lookup _ _ _ (Hcl eq_refl) Hw); done
         end);
    try (intros ev Hev; rewrite length_insert; by apply Hwho);
    try (intros w' x [(-> & <- & _)|[_ Hw']]%list_lookup_insert_Some;
         [|by apply Hch]; simpl; split; [|done]; by eapply Hch).
  - (* a worker calls fn *)
    intros w' x Hx. rewrite worker_log_snoc. simpl.
    destruct (Hch _ _ Heqo) as [Hc Hst]. specialize (Hst _ eq_refl).
    apply list_lookup_insert_Some in Hx as [(-> & <- & _)|[Hne Hw']].
    + rewrite decide_True by done. split.
      * apply chain_snoc. simpl. rewrite <- Hst. split_and!; [done..|].
        by destruct (f (ctx_done s) t store).
      * intros st' [= <-]. by rewrite final_store_snoc.
    + rewrite decide_False by done. by apply Hch.
  - intros ev' [Hev| ->%list_elem_of_singleton]%elem_of_app; rewrite length_insert.
    + by apply Hwho.
    + simpl. by eapply lookup_lt_Some.
  - (* a worker sends *)
    intros w' x [(-> & <- & _)|[_ Hw']]%list_lookup_insert_Some; [|by apply Hch].
    destruct (Hch _ _ Heqo) as [Hc Hst]. split; [done|].
    simpl. intros st' [= <-]. by apply Hst.
Qed.

Lemma InvFn_spawn ctx0 tasks maxWorkers f :
  InvFn f (spawn (E:=E) ctx0 tasks maxWorkers).
Proof.
  split; simpl; [done| |by intros ev ?%elem_of_nil].
  intros w x [-> _]%lookup_replicate. split; [done|].
  by intros st' [= <-].
Qed.

Lemma exec_InvFn tasks f acts s s' :
  Inv tasks s → InvFn f s → exec tasks (Some f) acts s = Some s' →
  Inv tasks s' ∧ InvFn f s'.
Proof.
  intros HI HF Hex.
  apply (exec_invariant tasks (Some f) (λ s, Inv tasks s ∧ InvFn f s)) in Hex; [done| |done].
  intros a s1 s2 [? ?] ?. split; [by eapply Inv_step|by eapply InvFn_step].
Qed.

Lemma step_workers_length tasks fn a s s' :
  step tasks fn a s = Some s' → length (workers s') = length (workers s).
Proof. intros Hstep. step_cases Hstep; simpl; by rewrite ?length_insert. Qed.

Lemma exec_workers_length tasks fn acts s s' :
  exec tasks fn acts s = Some s' → length (workers s') = length (workers s).
Proof.
  intros Hex.
  apply (exec_invariant tasks fn (λ s1, length (workers s1) = length (workers s))) in Hex;
    [done| |done].
  intros a s1 s2 <- ?. by eapply step_workers_length.
Qed.

(** ** No deadlock: a call that has not returned can take a step *)

Lemma not_all_done ws :
  forallb is_done ws = false → ∃ w x, ws !! w = Some x ∧ is_done x = false.
Proof.
  induction ws as [|x ws IH]; simpl; [done|].
  destruct (is_done x) eqn:Hx; simpl.
  - intros (w & y & ? & ?)%IH. by exists (S w), y.
  - intros _. by exists 0%nat, x.
Qed.

Lemma in_flight_sending ws w e st :
  ws !! w = Some (WSend e st) → (0 < length (in_flight ws))%nat.
Proof.
  unfold in_flight. revert w.
  induction ws as [|x ws IH]; intros [|w] Hw; simplify_eq/=; [lia|].
  rewrite length_app. apply IH in Hw. lia.
Qed.

Lemma result_None tasks s :
  Inv tasks s → result tasks s = None → (length (errs s) < length tasks)%nat.
Proof.
  intros HI. unfold result. case_bool_decide; [done|].
  pose proof (inv_errs _ _ HI). lia.
Qed.

Lemma progress tasks fn s :
  Inv tasks s → panicked s = false → result tasks s = None →
  ∃ a s', is_cancel a = false ∧ step tasks fn a s = Some s'.
Proof.
  intros HI Hp Hres. pose proof (result_None _ _ HI Hres) as Herrs.
  destruct HI as [Hlog Hlen Hnext _ Hq Hcl Hout].
  specialize (Hq Hp). specialize (Hcl Hp). specialize (Hout Hp).
  unfold step. rewrite Hp.
  destruct (tasksChan_closed s) eqn:Htc.
  - destruct (forallb is_done (workers s)) eqn:Hall.
    + destruct (errorsChan_closed s) eqn:Hec.
      * exists ACollect. rewrite bool_decide_eq_true_2 by done.
        destruct (errorsChan s); eauto.
      * exists AWaitClose. eauto.
    + apply not_all_done in Hall as Hw. destruct Hw as (w & x & Hw & Hx).
      destruct x as [st|e st|]; [| |done].
      * exists (AWorkerRecv w). rewrite Hw.
        destruct (tasksChan s) as [|[i t] q]; [eauto|]. destruct fn; eauto.
      * exists (AWorkerSend w). rewrite Hw.
        destruct (errorsChan_closed s) eqn:Hec; [by specialize (Hcl eq_refl)|].
        rewrite bool_decide_eq_true_2; [eauto|].
        destruct Hout as (reals & pad & _ & _ & HR).
        apply Permutation_length in HR.
        rewrite !length_app, length_fmap in HR.
        apply in_flight_sending in Hw. unfold cap. lia.
  - destruct (tasks !! d_next s) as [t|] eqn:Ht.
    + exists ADispatchSend. rewrite bool_decide_eq_true_2; [eauto|].
      rewrite Hq, queue_length by done. apply lookup_lt_Some in Ht. unfold cap. lia.
    + exists ADispatchEnd. eauto.
Qed.


(** ** Runs in which [ctx] is never cancelled *)

Lemma InvNoCancel_step tasks fn a s s' :
  Inv tasks s → InvNoCancel tasks s → is_cancel a = false →
  step tasks fn a s = Some s' → InvNoCancel tasks s'.
Proof.
  intros HI [Hctx Hcl Hdone Hlog] Ha Hstep.
  pose proof (inv_next _ _ HI) as Hnext.
  destruct a; step_cases Hstep; try congruence; split; simpl; try done.
  all: try (apply Forall_app; split; [done|]; by apply Forall_singleton).
  all: try (intros w' Hw';
            try (apply list_lookup_insert_Some in Hw' as [(_ & ? & _)|[_ Hw']]; [done|]);
            by destruct (Hdone _ Hw')).
  all: try (intros; congruence); try (intros; by apply Hcl).
  intros _. match goal with Hn : _ !! _ = None |- _ => apply lookup_ge_None in Hn end.
  lia.
Qed.

Lemma InvNoCancel_spawn tasks maxWorkers :
  InvNoCancel tasks (spawn (K:=K) (V:=V) (E:=E) false tasks maxWorkers).
Proof.
  split; simpl; [done..| |done]. by intros w [? _]%lookup_replicate.
Qed.

Lemma exec_invariant_on tasks fn (ok : Action → Prop) (P : Pool → Prop) :
  (∀ a s s', ok a → P s → step tasks fn a s = Some s' → P s') →
  ∀ acts s s', Forall ok acts → P s → exec tasks fn acts s = Some s' → P s'.
Proof.
  intros Hstep acts. induction acts as [|a acts IH]; intros s s' Hok HP Hex;
    simplify_eq/=; [done|].
  apply Forall_cons in Hok as [Ha Hok].
  destruct (step tasks fn a s) as [s1|] eqn:Hs; [|done]. eauto.
Qed.

Lemma no_cancel_Forall acts :
  ACancel ∉ acts → Forall (λ a, is_cancel a = false) acts.
Proof.
  intros Hno. apply Forall_forall. intros a Ha.
  by destruct a.
Qed.

Lemma exec_InvNoCancel tasks f acts s s' :
  ACancel ∉ acts →
  Inv tasks s ∧ InvFn f s ∧ InvNoCancel tasks s →
  exec tasks (Some f) acts s = Some s' →
  Inv tasks s' ∧ InvFn f s' ∧ InvNoCancel tasks s'.
Proof.
  intros Hno%no_cancel_Forall HP Hex.
  eapply (exec_invariant_on tasks (Some f) _
            (λ s, Inv tasks s ∧ InvFn f s ∧ InvNoCancel tasks s)); [|done..].
  clear. intros a s s' Ha (HI & HF & HN) Hstep.
  split_and!; [by eapply Inv_step|by eapply InvFn_step|].
  exact (InvNoCancel_step _ _ _ _ _ HI HN Ha Hstep).
Qed.

(** ** One worker: the outcomes keep the order of the calls *)

Lemma InvOne_step tasks fn a s s' x :
  workers s = [x] →
  (errorsChan_closed s = true → forallb is_done (workers s) = true) →
  InvOne s → step tasks fn a s = Some s' → InvOne s'.
Proof.
  intros Hws Hcl Hone Hstep Hp'.
  pose proof (step_not_panicked _ _ _ _ _ Hstep) as Hp.
  destruct (Hone Hp) as (reals & pad & He & Hpad & HR).
  unfold in_flight in HR. rewrite Hws in HR. simpl in HR.
  destruct a; step_cases Hstep; simpl in *; try done;
    repeat match goal with
           | Hw : workers s !! ?w = Some _ |- _ =>
               rewrite Hws in Hw; destruct w; simplify_eq/=
           end.
  all: unfold outcomes, in_flight; simpl; rewrite ?Hws; simpl.
  all: simpl in *; rewrite ?app_nil_r in *.
  all: try (exists reals, pad;
            split_and!;
            [done
            |intros Hp0; destruct (Hpad Hp0); split; congruence
            |rewrite ?fmap_app; simpl; rewrite <- HR, <- ?(assoc (++)); done]).
  - exists reals, (S pad).
    repeat match goal with
           | Hc : errorsChan s = _ |- _ => rewrite Hc; clear Hc
           | Hc : errorsChan_closed s = _ |- _ => rewrite Hc; clear Hc
           end.
    split_and!; [|done..].
    by rewrite replicate_S_end, (assoc (++)), <- He.
  - destruct pad as [|pad]; [|by destruct Hpad as [? _]].
    match goal with
    | |- context [errs s ++ [?o]] => exists (reals ++ [o]), 0%nat
    end.
    simpl in *. rewrite app_nil_r in *.
    split_and!; [by rewrite He|done|]. by rewrite <- HR, <- !(assoc (++)).
Qed.

Lemma exec_one tasks f acts s s' :
  ACancel ∉ acts → length (workers s) = 1%nat →
  Inv tasks s ∧ InvFn f s ∧ InvNoCancel tasks s ∧ InvOne s →
  exec tasks (Some f) acts s = Some s' →
  (Inv tasks s' ∧ InvFn f s' ∧ InvNoCancel tasks s' ∧ InvOne s')
  ∧ length (workers s') = 1%nat.
Proof.
  intros Hno%no_cancel_Forall Hone HP Hex.
  eapply (exec_invariant_on tasks (Some f) _
            (λ s, (Inv tasks s ∧ InvFn f s ∧ InvNoCancel tasks s ∧ InvOne s)
                  ∧ length (workers s) = 1%nat)); [|done..].
  clear. intros a s s' Ha [(HI & HF & HN & HO) Hlen] Hstep.
  split; [|by rewrite (step_workers_length _ _ _ _ _ Hstep)].
  split_and!; [by eapply Inv_step|by eapply InvFn_step| |].
  - exact (InvNoCancel_step _ _ _ _ _ HI HN Ha Hstep).
  - destruct (workers s) as [|x [|]] eqn:Hws; simplify_eq/=.
    eapply InvOne_step; [done| |done..].
    apply (inv_closed _ _ HI), (inv_no_panic _ _ HF).
Qed.

Lemma InvOne_spawn ctx0 tasks maxWorkers :
  InvOne (spawn (K:=K) (V:=V) (E:=E) ctx0 tasks maxWorkers).
Proof.
  intros _. exists [], 0%nat. simpl. by rewrite in_flight_replicate.
Qed.

(** ** The record of the calls *)

Lemma indexed_fst tasks : (indexed tasks).*1 = seq 0 (length tasks).
Proof. unfold indexed. apply fst_zip. rewrite length_seq. lia. Qed.

Lemma indexed_snd tasks : (indexed tasks).*2 = tasks.
Proof. unfold indexed. apply snd_zip. rewrite length_seq. lia. Qed.

Lemma log_length tasks s : Inv tasks s → (length (log s) ≤ length tasks)%nat.
Proof. intros HI. pose proof (inv_log_len _ _ HI). pose proof (inv_next _ _ HI). lia. Qed.

Lemma log_indices tasks s :
  Inv tasks s → ev_index <$> log s = seq 0 (length (log s)).
Proof.
  intros HI. pose proof (log_length _ _ HI).
  transitivity ((ev_key <$> log s).*1); [by rewrite <- list_fmap_compose|].
  rewrite (inv_log _ _ HI), fmap_take, indexed_fst, take_seq.
  f_equal. lia.
Qed.

Lemma log_tasks tasks s :
  Inv tasks s → ev_task <$> log s = take (length (log s)) tasks.
Proof.
  intros HI.
  transitivity ((ev_key <$> log s).*2); [by rewrite <- list_fmap_compose|].
  by rewrite (inv_log _ _ HI), fmap_take, indexed_snd.
Qed.

Lemma log_lookup tasks s i ev :
  Inv tasks s → log s !! i = Some ev →
  ev_index ev = i ∧ tasks !! i = Some (ev_task ev).
Proof.
  intros HI Hev. pose proof (lookup_lt_Some _ _ _ Hev) as Hlt.
  assert ((ev_key <$> log s) !! i = Some (ev_key ev)) as Hk
    by (by rewrite list_lookup_fmap, Hev).
  rewrite (inv_log _ _ HI) in Hk. apply lookup_take_Some in Hk as [Hk _].
  apply lookup_indexed in Hk as (t & [= -> ->] & Ht). done.
Qed.

Lemma worker_log_all l :
  Forall (λ ev, ev_worker ev = 0%nat) l → worker_log 0 l = l.
Proof.
  unfold worker_log. induction 1 as [|ev l Hev _ IH]; [done|].
  rewrite filter_cons, decide_True by done. by rewrite IH.
Qed.

Lemma chain_seq_errs f st l :
  chain f st l → Forall (λ ev, ev_done ev = false) l →
  ev_err <$> l = seq_errs f st (ev_task <$> l).
Proof.
  revert st. induction l as [|ev l IH]; intros st; simpl; [done|].
  intros (_ & Hf & Hc) [Hd Hl]%Forall_cons. rewrite Hd in Hf.
  rewrite Hf. simpl. f_equal. by apply IH.
Qed.

(** ** What a call returns when [ctx] is never cancelled *)

Lemma no_cancel_all_real tasks s (R : relation (list (option E))) :
  (∀ r1 r2 : list (option E), R r1 r2 → length r1 = length r2) →
  Inv tasks s → InvNoCancel tasks s → panicked s = false → workers s ≠ [] →
  outcomes R s → length (errs s) = length tasks →
  R (errs s) (ev_err <$> log s) ∧ length (log s) = length tasks.
Proof.
  intros HRlen HI HN Hp Hws (reals & pad & He & Hpad & HR) Hlen.
  pose proof (log_length _ _ HI) as Hlog.
  pose proof (HRlen _ _ HR) as Hl. rewrite !length_app, length_fmap in Hl.
  rewrite He, length_app, length_replicate in Hlen.
  destruct pad as [|pad].
  - simpl in He. rewrite app_nil_r in He.
    assert (errorsChan s = []) as Hc by (apply nil_length_inv; lia).
    assert (in_flight (workers s) = []) as Hf by (apply nil_length_inv; lia).
    rewrite Hc, Hf, app_nil_r in HR. simpl in HR. rewrite He. split; [done|lia].
  - destruct Hpad as [Hc Hcl]; [done|].
    pose proof (inv_closed _ _ HI Hp Hcl) as Hall.
    assert (∃ x, workers s !! 0%nat = Some x) as [x Hx]
      by (destruct (workers s); [done|eauto]).
    pose proof (all_done_lookup _ _ _ Hall Hx) as ->.
    destruct (inv_nc_done _ _ HN _ Hx) as [Htc Hq].
    pose proof (inv_nc_closed _ _ HN Htc) as Hd.
    pose proof (inv_queue _ _ HI Hp) as Hqueue.
    apply (f_equal length) in Hqueue.
    pose proof (inv_next _ _ HI) as Hnext.
    rewrite Hq, queue_length in Hqueue by done.
    simpl in Hqueue. rewrite Hc, all_done_in_flight in Hl by done.
    simpl in Hl. lia.
Qed.

(** ** The entry point *)

Lemma RunWorkerPool_running ctx0 (tasks : GoSlice T) maxWorkers fn :
  elems tasks ≠ [] →
  RunWorkerPool ctx0 tasks maxWorkers fn
  = Running (spawn ctx0 (elems tasks) maxWorkers).
Proof.
  intros Hne. unfold RunWorkerPool, len.
  destruct (elems tasks); [done|]. done.
Qed.

Lemma RunWorkerPool_empty ctx0 (tasks : GoSlice T) maxWorkers fn :
  elems tasks = [] →
  RunWorkerPool ctx0 tasks maxWorkers fn = Returned (Slice []).
Proof. intros He. unfold RunWorkerPool, len. by rewrite He. Qed.

Lemma result_Some tasks s r :
  result tasks s = Some r → r = Slice (errs s) ∧ length (errs s) = length tasks.
Proof. unfold result. case_bool_decide; naive_solver. Qed.


Lemma spawn_nonpositive ctx0 tasks maxWorkers :
  tasks ≠ [] → maxWorkers ≤ 0 →
  workers (spawn (K:=K) (V:=V) (E:=E) ctx0 tasks maxWorkers) = [].
Proof.
  intros Hne Hmw. unfold spawn, effective_workers, Utils.Clamp, range_count.
  simpl. destruct tasks as [|t l]; [done|]. simpl length.
  replace (Z.to_nat _) with 0%nat by lia. done.
Qed.

(** C2: with a non-empty task list and maxWorkers <= 0 the context-aware
    pool does not clamp to 1: Clamp is called with the task count as the
    value and maxWorkers as the upper bound, so the effective count is
    maxWorkers itself and no worker is spawned, where the version without
    a context computes 1. *)
Theorem effective_workers_nonpositive ctx0 (tasks : GoSlice T) maxWorkers :
  elems tasks ≠ [] → maxWorkers ≤ 0 →
  effective_workers (len tasks) maxWorkers = maxWorkers ∧
  effective_workers (len tasks) maxWorkers ≠ 1 ∧
  workers (spawn (K:=K) (V:=V) (E:=E) ctx0 (elems tasks) maxWorkers) = [] ∧
  PlainPool.effective_workers (len tasks) maxWorkers = 1.
Proof.
  intros Hne Hmw. split_and!; [| |by apply spawn_nonpositive|].
  all: unfold effective_workers, PlainPool.effective_workers, Utils.Clamp, len.
  all: destruct (elems tasks) as [|t l]; [done|]; simpl length; lia.
Qed.


(** C4: for an empty or nil task list the call returns at once an empty
    slice that is not nil, whatever maxWorkers and fn (a nil fn included),
    and fn is not called. *)
Theorem empty_tasks_return_empty ctx0 (tasks : GoSlice T) maxWorkers fn :
  len tasks = 0 →
  ∃ r, RunWorkerPool ctx0 tasks maxWorkers fn = Returned r ∧
    is_nil r = false ∧ elems r = [] ∧
    ∀ acts, run_log (RunWorkerPool ctx0 tasks maxWorkers fn) (elems tasks) fn acts
            = Some [].
Proof.
  intros Hlen. assert (elems tasks = []) as He.
  { unfold len in Hlen. destruct (elems tasks); [done|simpl in Hlen; lia]. }
  exists (Slice []). rewrite (RunWorkerPool_empty _ _ _ _ He). done.
Qed.

(** C5: whatever the task list, maxWorkers, fn and the cancellation, fn is
    called at most len(tasks) times, and no task (slot of the task list) is
    handed to fn twice. *)
Theorem fn_called_at_most_once_per_task ctx0 (tasks : GoSlice T) maxWorkers fn acts l :
  run_log (RunWorkerPool ctx0 tasks maxWorkers fn) (elems tasks) fn acts = Some l →
  (length l ≤ length (elems tasks))%nat ∧
  NoDup (ev_index <$> l) ∧
  ∀ ev, ev ∈ l → elems tasks !! ev_index ev = Some (ev_task ev).
Proof.
  unfold RunWorkerPool. destruct (len tasks =? 0) eqn:Hlen; simpl.
  { intros [= <-]. split_and!; [simpl; lia|constructor|by intros ev ?%elem_of_nil]. }
  destruct (exec _ _ _ _) as [s|] eqn:Hex; [|done]. simpl. intros [= <-].
  pose proof (exec_Inv _ _ _ _ _ (Inv_spawn _ _ _) Hex) as HI.
  split_and!.
  - by apply log_length.
  - rewrite (log_indices _ _ HI). apply NoDup_seq.
  - intros ev (i & Hi)%list_elem_of_lookup_1.
    destruct (log_lookup _ _ _ _ HI Hi) as [Hidx Ht]. by rewrite Hidx.
Qed.

(** C8: for a non-empty task list the effective worker count never exceeds
    len(tasks), and it equals len(tasks) when the requested maxWorkers is
    greater; as many workers are spawned. *)
Theorem effective_workers_at_most_len ctx0 (tasks : GoSlice T) maxWorkers :
  elems tasks ≠ [] →
  effective_workers (len tasks) maxWorkers ≤ len tasks ∧
  (length (workers (spawn (K:=K) (V:=V) (E:=E) ctx0 (elems tasks) maxWorkers))
   ≤ length (elems tasks))%nat ∧
  (len tasks < maxWorkers →
   effective_workers (len tasks) maxWorkers = len tasks ∧
   length (workers (spawn (K:=K) (V:=V) (E:=E) ctx0 (elems tasks) maxWorkers))
   = length (elems tasks)).
Proof.
  intros Hne. unfold spawn, effective_workers, Utils.Clamp, range_count, len.
  simpl. rewrite length_replicate.
  destruct (elems tasks) as [|t l]; [done|]. simpl length. lia.
Qed.

(** ** One worker *)

Lemma one_worker_chain f s :
  InvFn f s → length (workers s) = 1%nat → chain f ∅ (log s).
Proof.
  intros HF Hlen.
  assert (∃ x, workers s !! 0%nat = Some x) as [x Hx]
    by (destruct (workers s); [done|eauto]).
  destruct (inv_chain _ _ HF _ _ Hx) as [Hc _].
  rewrite worker_log_all in Hc; [done|].
  apply Forall_forall. intros ev Hev%(inv_who _ _ HF). lia.
Qed.

Lemma spawn_one_worker ctx0 tasks maxWorkers :
  effective_workers (Z.of_nat (length tasks)) maxWorkers = 1 →
  length (workers (spawn (K:=K) (V:=V) (E:=E) ctx0 tasks maxWorkers)) = 1%nat.
Proof. intros He. unfold spawn. simpl. by rewrite He. Qed.

Lemma wrap64_small x : - 2 ^ 63 ≤ x < 2 ^ 63 → wrap64 x = x.
Proof. intros Hx. unfold wrap64. rewrite Z.mod_small; lia. Qed.

Lemma chain_counter f (read : gmap K V → Z) st l k :
  (∀ b t st', read (f b t st').2 = wrap64 (read st' + 1)) →
  chain f st l → read st = k → 0 ≤ k → k + Z.of_nat (length l) < 2 ^ 63 →
  ∀ i ev, l !! i = Some ev →
    read (ev_store_in ev) = k + Z.of_nat i ∧
    read (ev_store_out ev) = k + Z.of_nat i + 1.
Proof.
  intros Hf. revert st k. induction l as [|ev' l IH]; intros st k; [done|].
  simpl. intros (Hin & Hcall & Hc) Hk Hk0 Hlen.
  assert (read (ev_store_out ev') = k + 1) as Hout.
  { pose proof (Hf (ev_done ev') (ev_task ev') st) as Hr.
    rewrite Hcall in Hr. simpl in Hr. rewrite Hr, Hk. apply wrap64_small. lia. }
  intros [|i] ev Hev; simpl in Hev.
  - injection Hev as <-. rewrite Hin, Hout. lia.
  - destruct (IH _ (k + 1) Hc Hout) with (i := i) (ev := ev) as [? ?]; [lia..|done|].
    lia.
Qed.

(** C6: each worker starts from its own empty store and hands to every call
    of fn the store its previous call left; with effective worker count 1
    and a fn that increments a counter of the store, the call on the i-th
    task (from 1) finds the counter at i-1 and leaves it at i, so the N-th
    task reads N. *)
Theorem worker_store_persists ctx0 tasks maxWorkers f acts s :
  exec tasks (Some f) acts (spawn ctx0 tasks maxWorkers) = Some s →
  (∀ w x, workers s !! w = Some x →
     chain f ∅ (worker_log w (log s)) ∧
     ∀ st, worker_store x = Some st →
           st = final_store ∅ (worker_log w (log s))) ∧
  (∀ read : gmap K V → Z,
     effective_workers (Z.of_nat (length tasks)) maxWorkers = 1 →
     Z.of_nat (length tasks) < 2 ^ 63 →
     read ∅ = 0 →
     (∀ b t st, read (f b t st).2 = wrap64 (read st + 1)) →
     ∀ i ev, log s !! i = Some ev →
       ev_index ev = i ∧ tasks !! i = Some (ev_task ev) ∧
       read (ev_store_in ev) = Z.of_nat i ∧
       read (ev_store_out ev) = Z.of_nat i + 1).
Proof.
  intros Hex.
  destruct (exec_InvFn _ _ _ _ _ (Inv_spawn _ _ _) (InvFn_spawn _ _ _ _) Hex)
    as [HI HF].
  split; [apply (inv_chain _ _ HF)|].
  intros read Hone Hlen Hread Hf i ev Hev.
  destruct (log_lookup _ _ _ _ HI Hev) as [Hidx Ht]. split_and!; [done..| |].
  all: assert (chain f ∅ (log s)) as Hc
      by (apply one_worker_chain;
          [done|by rewrite (exec_workers_length _ _ _ _ _ Hex), spawn_one_worker]).
  all: pose proof (log_length _ _ HI) as Hlog.
  all: destruct (chain_counter f read ∅ (log s) 0 Hf Hc Hread) with (i := i) (ev := ev)
      as [Hi Ho]; [lia..|done|lia].
Qed.

(** ** Workers that have returned *)

Lemma done_step tasks fn a s s' w :
  workers s !! w = Some WDone → step tasks fn a s = Some s' →
  workers s' !! w = Some WDone ∧ worker_log w (log s') = worker_log w (log s).
Proof.
  intros Hw Hstep. destruct a as [| | | |w'|w'|w'| |]; step_cases Hstep; simpl; try done.
  all: destruct (decide (w' = w)) as [->|Hne]; [congruence|].
  all: rewrite ?list_lookup_insert_ne by done; try done.
  rewrite worker_log_snoc. simpl. by rewrite decide_False.
Qed.

Lemma done_exec tasks fn acts s s' w :
  workers s !! w = Some WDone → exec tasks fn acts s = Some s' →
  workers s' !! w = Some WDone ∧ worker_log w (log s') = worker_log w (log s).
Proof.
  intros Hw Hex.
  eapply (exec_invariant tasks fn
    (λ s1, workers s1 !! w = Some WDone ∧ worker_log w (log s1) = worker_log w (log s)));
    [|split; [exact Hw|done]|exact Hex].
  clear. intros a s1 s2 [Hw Hl] Hstep.
  destruct (done_step _ _ _ _ _ _ Hw Hstep) as [? Heq]. split; [done|congruence].
Qed.

(** C9, as the code has it: a worker whose select takes the ctx.Done()
    branch (ready only once the signal has fired) returns without calling
    fn and without sending; a worker that has returned never calls fn
    again; the values sent on the outcome channel are values returned by
    calls of fn, one per call at most; and once the signal has fired a
    worker at its select can always take the ctx.Done() branch.  A worker
    whose select takes the queue branch while the signal has fired still
    starts that task. *)
Theorem worker_returns_on_ctx_branch ctx0 tasks maxWorkers f acts s :
  exec tasks (Some f) acts (spawn ctx0 tasks maxWorkers) = Some s →
  (∀ w s', step tasks (Some f) (AWorkerCtx w) s = Some s' →
     ctx_done s = true ∧ workers s' !! w = Some WDone ∧
     log s' = log s ∧ errorsChan s' = errorsChan s) ∧
  (∀ w acts' s', workers s !! w = Some WDone →
     exec tasks (Some f) acts' s = Some s' →
     workers s' !! w = Some WDone ∧
     worker_log w (log s') = worker_log w (log s)) ∧
  (∃ reals pad, errs s = reals ++ replicate pad None ∧
     reals ++ errorsChan s ++ in_flight (workers s) ≡ₚ ev_err <$> log s) ∧
  (∀ w st, ctx_done s = true → workers s !! w = Some (WSelect st) →
     is_Some (step tasks (Some f) (AWorkerCtx w) s)).
Proof.
  intros Hex.
  destruct (exec_InvFn _ _ _ _ _ (Inv_spawn _ _ _) (InvFn_spawn _ _ _ _) Hex)
    as [HI HF].
  split_and!; [| | |intros w st Hd Hw; unfold step;
                    rewrite (inv_no_panic _ _ HF), Hw, Hd; eauto].
  - intros w s' Hstep. step_cases Hstep. simpl. split_and!; [done| |done..].
    apply list_lookup_insert_eq. by eapply lookup_lt_Some.
  - intros w acts' s' Hw Hex'. by eapply done_exec.
  - destruct (inv_outcomes _ _ HI (inv_no_panic _ _ HF)) as (reals & pad & ? & _ & ?).
    eauto.
Qed.

(** C10: with effective worker count 1 and a context that is never
    cancelled, every schedule ends with the call returning the values of
    fn on the tasks in submission order, the store threaded through. *)
Theorem one_worker_outcomes_in_order (tasks : GoSlice T) maxWorkers f :
  effective_workers (len tasks) maxWorkers = 1 →
  match RunWorkerPool false tasks maxWorkers (Some f) with
  | Returned r => elems r = seq_errs f ∅ (elems tasks)
  | Running s0 =>
      ∀ acts s, ACancel ∉ acts → exec (elems tasks) (Some f) acts s0 = Some s →
        (length acts ≤ measure (elems tasks) s0)%nat ∧
        match result (elems tasks) s with
        | Some r => elems r = seq_errs f ∅ (elems tasks)
        | None => ∃ a s', a ≠ ACancel ∧ step (elems tasks) (Some f) a s = Some s'
        end
  end.
Proof.
  intros Hone. destruct (decide (elems tasks = [])) as [He|Hne].
  { rewrite (RunWorkerPool_empty _ _ _ _ He), He. done. }
  rewrite (RunWorkerPool_running _ _ _ _ Hne). intros acts s Hno Hex.
  split. { apply exec_measure in Hex. lia. }
  destruct (exec_one (elems tasks) f acts _ s Hno (spawn_one_worker false _ _ Hone)) as
    [(HI & HF & HN & HO) Hlen]; [|done|].
  { split_and!; [apply Inv_spawn|apply InvFn_spawn|apply InvNoCancel_spawn
                |apply InvOne_spawn]. }
  pose proof (inv_no_panic _ _ HF) as Hp.
  destruct (result (elems tasks) s) as [r|] eqn:Hres.
  - apply result_Some in Hres as [-> Herrs]. simpl.
    destruct (no_cancel_all_real (elems tasks) s eq) as [Heq Hlog]; try done.
    { by intros r1 r2 ->. }
    { by destruct (workers s). }
    { by apply HO. }
    rewrite Heq, (chain_seq_errs f ∅); [|by apply one_worker_chain|apply (inv_nc_log _ _ HN)].
    by rewrite (log_tasks _ _ HI), Hlog, take_ge.
  - destruct (progress _ (Some f) _ HI Hp Hres) as (a & s' & Ha & Hstep).
    exists a, s'. split; [by destruct a|done].
Qed.

(** ** Every recorded call is a call of [fn] *)

Lemma chain_call f st l ev :
  chain f st l → ev ∈ l →
  f (ev_done ev) (ev_task ev) (ev_store_in ev) = (ev_err ev, ev_store_out ev).
Proof.
  revert st. induction l as [|ev' l IH]; intros st; simpl.
  - by intros _ ?%elem_of_nil.
  - intros (Hin & Hcall & Hc) [->|Hev]%elem_of_cons; [by rewrite Hin|by eapply IH].
Qed.

Lemma log_calls f s ev :
  InvFn f s → ev ∈ log s →
  f (ev_done ev) (ev_task ev) (ev_store_in ev) = (ev_err ev, ev_store_out ev).
Proof.
  intros HF Hev. pose proof (inv_who _ _ HF _ Hev) as Hw.
  apply lookup_lt_is_Some in Hw as [x Hx].
  destruct (inv_chain _ _ HF _ _ Hx) as [Hc _].
  apply (chain_call _ _ _ _ Hc). unfold worker_log. by apply list_elem_of_filter.
Qed.


(** ** What a call returns: the values sent, then zero values *)

Lemma returned_outcomes tasks s :
  Inv tasks s → panicked s = false → length (errs s) = length tasks →
  ∃ reals pad, errs s = reals ++ replicate pad None ∧
               reals ≡ₚ ev_err <$> log s.
Proof.
  intros HI Hp Hlen.
  destruct (inv_outcomes _ _ HI Hp) as (reals & pad & He & Hpad & HR).
  exists reals, pad. split; [done|].
  pose proof (log_length _ _ HI) as Hlog.
  pose proof (Permutation_length HR) as Hl.
  rewrite !length_app, length_fmap in Hl.
  rewrite He, length_app, length_replicate in Hlen.
  destruct pad as [|pad].
  - assert (errorsChan s = []) as Hc by (apply nil_length_inv; lia).
    assert (in_flight (workers s) = []) as Hf by (apply nil_length_inv; lia).
    by rewrite Hc, Hf, app_nil_r in HR.
  - destruct Hpad as [Hc Hcl]; [done|].
    pose proof (inv_closed _ _ HI Hp Hcl) as Hall.
    by rewrite Hc, (all_done_in_flight _ Hall), app_nil_r in HR.
Qed.

(** ** Further properties of the context-aware pool *)

Lemma send_room tasks s w e st :
  Inv tasks s → panicked s = false → workers s !! w = Some (WSend e st) →
  errorsChan_closed s = false ∧ (length (errorsChan s) < cap tasks)%nat.
Proof.
  intros HI Hp Hw. split.
  - destruct (errorsChan_closed s) eqn:Hec; [|done].
    pose proof (inv_closed _ _ HI Hp Hec) as Hall.
    by pose proof (all_done_lookup _ _ _ Hall Hw).
  - destruct (inv_outcomes _ _ HI Hp) as (reals & pad & _ & _ & HR).
    apply Permutation_length in HR. rewrite !length_app, length_fmap in HR.
    apply in_flight_sending in Hw. pose proof (log_length _ _ HI). unfold cap. lia.
Qed.

Lemma queue_room tasks s t :
  Inv tasks s → panicked s = false → tasks !! d_next s = Some t →
  (length (tasksChan s) < cap tasks)%nat.
Proof.
  intros HI Hp Ht. rewrite (inv_queue _ _ HI Hp), queue_length by apply (inv_next _ _ HI).
  apply lookup_lt_Some in Ht. unfold cap. lia.
Qed.

(** X5: the two channels have room for every send.  Whatever the schedule
    and the cancellation, a dispatcher that still has a task to send can
    send it, and a worker holding the value fn returned can send it: the
    outcome channel is neither full nor closed, so the send does not panic. *)
Theorem sends_never_block ctx0 tasks maxWorkers f acts s :
  exec tasks (Some f) acts (spawn ctx0 tasks maxWorkers) = Some s →
  (∀ t, tasksChan_closed s = false → tasks !! d_next s = Some t →
     is_Some (step tasks (Some f) ADispatchSend s)) ∧
  (∀ w e st, workers s !! w = Some (WSend e st) →
     ∃ s', step tasks (Some f) (AWorkerSend w) s = Some s' ∧
           panicked s' = false ∧ errorsChan s' = errorsChan s ++ [e]).
Proof.
  intros Hex.
  destruct (exec_InvFn _ _ _ _ _ (Inv_spawn _ _ _) (InvFn_spawn _ _ _ _) Hex)
    as [HI HF].
  pose proof (inv_no_panic _ _ HF) as Hp. split.
  - intros t Htc Ht. unfold step.
    rewrite Hp, Htc, Ht, bool_decide_eq_true_2 by (by eapply queue_room). eauto.
  - intros w e st Hw. destruct (send_room _ _ _ _ _ HI Hp Hw) as [Hec Hlen].
    unfold step. rewrite Hp, Hw, Hec, bool_decide_eq_true_2 by done. eauto.
Qed.

(** X6: whatever fn, the worker count and the cancellation, the tasks taken
    from the queue and handed to fn are, in the order they are taken, the
    first tasks of the list: no task is skipped before a later one is
    started. *)
Theorem calls_are_a_prefix ctx0 tasks maxWorkers fn acts s :
  exec tasks fn acts (spawn ctx0 tasks maxWorkers) = Some s →
  ev_index <$> log s = seq 0 (length (log s)) ∧
  ev_task <$> log s = take (length (log s)) tasks ∧
  (length (log s) ≤ d_next s ≤ length tasks)%nat.
Proof.
  intros Hex. pose proof (exec_Inv _ _ _ _ _ (Inv_spawn _ _ _) Hex) as HI.
  split_and!; [by apply (log_indices tasks)|by apply log_tasks
              |apply (inv_log_len _ _ HI)|apply (inv_next _ _ HI)].
Qed.

(** X7: whatever the cancellation, the slice returned holds the values the
    calls of fn returned (up to their order), followed by one nil for each
    task that was never handed to fn. *)
Theorem returned_shape ctx0 tasks maxWorkers f acts s r :
  exec tasks (Some f) acts (spawn ctx0 tasks maxWorkers) = Some s →
  result tasks s = Some r →
  ∃ reals,
    elems r = reals ++ replicate (length tasks - length (log s)) None ∧
    reals ≡ₚ ev_err <$> log s.
Proof.
  intros Hex [-> Hlen]%result_Some.
  destruct (exec_InvFn _ _ _ _ _ (Inv_spawn _ _ _) (InvFn_spawn _ _ _ _) Hex)
    as [HI HF].
  destruct (returned_outcomes _ _ HI (inv_no_panic _ _ HF) Hlen)
    as (reals & pad & He & HR).
  exists reals. split; [|done]. simpl. rewrite He. do 2 f_equal.
  apply Permutation_length in HR.
  rewrite He, length_app, length_replicate in Hlen.
  rewrite length_fmap in HR. lia.
Qed.

(** X10: once the call has returned, the goroutines that are still running
    leave the slice it returned as it is. *)
Theorem returned_is_final tasks fn acts s s' r :
  result tasks s = Some r → exec tasks fn acts s = Some s' →
  result tasks s' = Some r.
Proof.
  intros Hres Hex.
  apply (exec_invariant tasks fn (λ s1, result tasks s1 = Some r)) in Hex; [done| |done].
  clear. intros a s s' Hres Hstep. apply result_Some in Hres as [-> Hlen].
  assert (errs s' = errs s) as He.
  { destruct a; step_cases Hstep; simpl; try done; lia. }
  unfold result. by rewrite He, bool_decide_eq_true_2.
Qed.

(** X4: for a non-empty task list and maxWorkers >= 1 the pool spawns
    min(len(tasks), maxWorkers) workers, at least one and at most maxWorkers,
    the same number as the version without a context. *)
Theorem effective_workers_positive ctx0 (tasks : GoSlice T) maxWorkers :
  elems tasks ≠ [] → 1 ≤ maxWorkers →
  effective_workers (len tasks) maxWorkers = Z.min (len tasks) maxWorkers ∧
  1 ≤ effective_workers (len tasks) maxWorkers ≤ maxWorkers ∧
  effective_workers (len tasks) maxWorkers
  = PlainPool.effective_workers (len tasks) maxWorkers ∧
  length (workers (spawn (K:=K) (V:=V) (E:=E) ctx0 (elems tasks) maxWorkers))
  = Z.to_nat (Z.min (len tasks) maxWorkers).
Proof.
  intros Hne Hmw.
  unfold spawn, effective_workers, PlainPool.effective_workers, Utils.Clamp,
    range_count, len. simpl. rewrite length_replicate.
  destruct (elems tasks) as [|t l]; [done|]. simpl length. lia.
Qed.

(** X8: no goroutine is left behind.  In a state where no goroutine can take
    a step, the call has returned, every worker has returned and both
    channels are closed. *)
Theorem quiescent_all_returned ctx0 tasks maxWorkers f acts s :
  exec tasks (Some f) acts (spawn ctx0 tasks maxWorkers) = Some s →
  (∀ a, is_cancel a = false → step tasks (Some f) a s = None) →
  is_Some (result tasks s) ∧
  forallb is_done (workers s) = true ∧
  tasksChan_closed s = true ∧ errorsChan_closed s = true.
Proof.
  intros Hex Hstuck.
  destruct (exec_InvFn _ _ _ _ _ (Inv_spawn _ _ _) (InvFn_spawn _ _ _ _) Hex)
    as [HI HF].
  pose proof (inv_no_panic _ _ HF) as Hp.
  assert (is_Some (result tasks s)) as Hres.
  { destruct (result tasks s) eqn:Hr; [eauto|].
    destruct (progress _ (Some f) _ HI Hp Hr) as (a & s' & Ha & Hs).
    by rewrite (Hstuck a Ha) in Hs. }
  assert (tasksChan_closed s = true) as Htc.
  { destruct (tasksChan_closed s) eqn:Htc; [done|].
    destruct (tasks !! d_next s) as [t|] eqn:Ht.
    - pose proof (Hstuck ADispatchSend eq_refl) as Hs. unfold step in Hs.
      by rewrite Hp, Htc, Ht, bool_decide_eq_true_2 in Hs by (by eapply queue_room).
    - pose proof (Hstuck ADispatchEnd eq_refl) as Hs. unfold step in Hs.
      by rewrite Hp, Htc, Ht in Hs. }
  assert (forallb is_done (workers s) = true) as Hall.
  { destruct (forallb is_done (workers s)) eqn:Hall; [done|].
    apply not_all_done in Hall as (w & x & Hw & Hx).
    destruct x as [st|e st|]; [| |done].
    - pose proof (Hstuck (AWorkerRecv w) eq_refl) as Hs. unfold step in Hs.
      rewrite Hp, Hw, Htc in Hs. by destruct (tasksChan s) as [|[i t] q].
    - pose proof (Hstuck (AWorkerSend w) eq_refl) as Hs. unfold step in Hs.
      destruct (send_room _ _ _ _ _ HI Hp Hw) as [Hec Hlen].
      by rewrite Hp, Hw, Hec, bool_decide_eq_true_2 in Hs by done. }
  split_and!; [done..|].
  destruct (errorsChan_closed s) eqn:Hec; [done|].
  pose proof (Hstuck AWaitClose eq_refl) as Hs. unfold step in Hs.
  by rewrite Hp, Hec, Hall in Hs.
Qed.

Lemma exec_one_any tasks f acts s s' :
  length (workers s) = 1%nat →
  Inv tasks s ∧ InvFn f s ∧ InvOne s →
  exec tasks (Some f) acts s = Some s' →
  (Inv tasks s' ∧ InvFn f s' ∧ InvOne s') ∧ length (workers s') = 1%nat.
Proof.
  intros Hone HP Hex.
  eapply (exec_invariant tasks (Some f)
            (λ s, (Inv tasks s ∧ InvFn f s ∧ InvOne s)
                  ∧ length (workers s) = 1%nat)); [|done..].
  clear. intros a s s' [(HI & HF & HO) Hlen] Hstep.
  split; [|by rewrite (step_workers_length _ _ _ _ _ Hstep)].
  split_and!; [by eapply Inv_step|by eapply InvFn_step|].
  destruct (workers s) as [|x [|]] eqn:Hws; simplify_eq/=.
  eapply InvOne_step; [done| |done..].
  apply (inv_closed _ _ HI), (inv_no_panic _ _ HF).
Qed.

Lemma returned_in_order tasks s :
  Inv tasks s → panicked s = false → outcomes eq s →
  length (errs s) = length tasks →
  errs s = (ev_err <$> log s) ++ replicate (length tasks - length (log s)) None.
Proof.
  intros HI Hp (reals & pad & He & Hpad & HR) Hlen.
  pose proof (log_length _ _ HI) as Hlog.
  pose proof (f_equal length HR) as Hl.
  rewrite !length_app, length_fmap in Hl.
  rewrite He, length_app, length_replicate in Hlen.
  assert (errorsChan s = [] ∧ in_flight (workers s) = []) as [Hc Hf].
  { destruct pad as [|pad].
    - split; apply nil_length_inv; lia.
    - destruct Hpad as [Hc Hcl]; [done|]. split; [done|].
      apply all_done_in_flight. by apply (inv_closed _ _ HI Hp). }
  rewrite Hc, Hf in HR. simpl in HR. rewrite app_nil_r in HR.
  rewrite He, <- HR. do 2 f_equal. rewrite Hc, Hf in Hl. simpl in Hl. lia.
Qed.

(** X9: with effective worker count 1 the slice returned keeps the order of
    the calls also when the context is cancelled: it is the values fn
    returned on the first tasks, in submission order and with the store
    threaded, followed by a nil for each task that was never started. *)
Theorem one_worker_cancelled_order ctx0 tasks maxWorkers f acts s r :
  effective_workers (Z.of_nat (length tasks)) maxWorkers = 1 →
  exec tasks (Some f) acts (spawn ctx0 tasks maxWorkers) = Some s →
  result tasks s = Some r →
  elems r = (ev_err <$> log s) ++ replicate (length tasks - length (log s)) None ∧
  chain f ∅ (log s) ∧
  ev_task <$> log s = take (length (log s)) tasks.
Proof.
  intros Hone Hex [-> Hlen]%result_Some.
  destruct (exec_one_any tasks f acts _ s (spawn_one_worker ctx0 _ _ Hone)) as
    [(HI & HF & HO) Hws]; [|done|].
  { split_and!; [apply Inv_spawn|apply InvFn_spawn|apply InvOne_spawn]. }
  pose proof (inv_no_panic _ _ HF) as Hp. split_and!.
  - by apply returned_in_order; [| |apply HO|].
  - by apply one_worker_chain.
  - by apply log_tasks.
Qed.

Lemma no_cancel_closed_complete tasks s :
  Inv tasks s → InvNoCancel tasks s → panicked s = false → workers s ≠ [] →
  errorsChan_closed s = true → length (log s) = length tasks.
Proof.
  intros HI HN Hp Hws Hcl.
  pose proof (inv_closed _ _ HI Hp Hcl) as Hall.
  assert (∃ x, workers s !! 0%nat = Some x) as [x Hx]
    by (destruct (workers s); [done|eauto]).
  pose proof (all_done_lookup _ _ _ Hall Hx) as ->.
  destruct (inv_nc_done _ _ HN _ Hx) as [Htc Hq].
  pose proof (inv_nc_closed _ _ HN Htc) as Hd.
  pose proof (inv_queue _ _ HI Hp) as Hqueue.
  pose proof (inv_next _ _ HI) as Hnext. pose proof (inv_log_len _ _ HI).
  apply (f_equal length) in Hqueue.
  rewrite Hq, queue_length in Hqueue by done. simpl in Hqueue. lia.
Qed.

Lemma nil_fn_step tasks a s s' :
  is_cancel a = false →
  (Inv tasks s ∧ InvNoCancel tasks s) ∧ tasks ≠ [] ∧ workers s ≠ [] ∧
  log s = [] ∧ errs s = [] →
  step tasks None a s = Some s' →
  (Inv tasks s' ∧ InvNoCancel tasks s') ∧ tasks ≠ [] ∧ workers s' ≠ [] ∧
  log s' = [] ∧ errs s' = [].
Proof.
  intros Ha ([HI HN] & Hne & Hws & Hlog & Herrs) Hstep.
  pose proof (step_not_panicked _ _ _ _ _ Hstep) as Hp.
  split; [split; [by eapply Inv_step|by eapply InvNoCancel_step]|].
  split; [done|]. split.
  { intros Hw. apply step_workers_length in Hstep. rewrite Hw in Hstep.
    by destruct (workers s). }
  destruct a; step_cases Hstep; simpl; try done; exfalso.
  all: assert (panicked s = false) as Hp by done.
  - (* a zero value would be read *)
    assert (errorsChan_closed s = true) as Hec by done.
    pose proof (no_cancel_closed_complete _ _ HI HN Hp Hws Hec) as Hfull.
    rewrite Hlog in Hfull. by destruct tasks.
  - (* a value would be received *)
    destruct (inv_outcomes _ _ HI Hp) as (reals & pad & _ & _ & HR).
    match goal with Hc : errorsChan s = _ :: _ |- _ => rewrite Hlog, Hc in HR end.
    apply Permutation_length in HR.
    rewrite !length_app in HR. simpl in HR. lia.
Qed.

(** X11: a nil fn with a non-empty task list, maxWorkers >= 1 and a context
    that is never cancelled: fn is never called successfully, the collector
    never receives anything, the call never returns, and a run can only end
    in the panic of a worker that took a task. *)
Theorem nil_fn_never_returns tasks maxWorkers acts s :
  tasks ≠ [] → 1 ≤ maxWorkers → ACancel ∉ acts →
  exec tasks None acts (spawn (K:=K) (V:=V) (E:=E) false tasks maxWorkers) = Some s →
  log s = [] ∧ errs s = [] ∧ result tasks s = None ∧
  ((∀ a, is_cancel a = false → step tasks None a s = None) → panicked s = true).
Proof.
  intros Hne Hmw Hno%no_cancel_Forall Hex.
  assert ((Inv tasks s ∧ InvNoCancel tasks s) ∧ tasks ≠ [] ∧ workers s ≠ [] ∧
          log s = [] ∧ errs s = []) as ([HI HN] & _ & Hws & Hlog & Herrs).
  { eapply (exec_invariant_on tasks None _ _ (λ a s1 s2 Ha, nil_fn_step tasks a s1 s2 Ha));
      [exact Hno| |exact Hex].
    split_and!; [apply Inv_spawn|apply InvNoCancel_spawn|done| |done..].
    unfold spawn, effective_workers, Utils.Clamp, range_count. simpl.
    destruct tasks as [|t l]; [done|]. simpl length.
    destruct (Z.to_nat _) eqn:Hz; [lia|done]. }
  assert (result tasks s = None) as Hres.
  { unfold result. rewrite Herrs, bool_decide_eq_false_2; [done|].
    simpl. by destruct tasks. }
  split_and!; [done..|]. intros Hstuck.
  destruct (panicked s) eqn:Hp; [done|].
  destruct (progress _ None _ HI Hp Hres) as (a & s' & Ha & Hs).
  by rewrite (Hstuck a Ha) in Hs.
Qed.

(** ** The pool without a context *)

Implicit Types (pfn : option (@Plain.Fn T K V E _ _)) (g : @Plain.Fn T K V E _ _).

Ltac plain_cases Hstep :=
  unfold Plain.step in Hstep;
  repeat match type of Hstep with
         | context [match ?x with _ => _ end] => destruct x eqn:?
         end;
  simplify_eq;
  repeat match goal with
         | Hb : bool_decide _ = true |- _ => apply bool_decide_eq_true_1 in Hb
         | Hb : bool_decide _ = false |- _ => apply bool_decide_eq_false_1 in Hb
         end.

Lemma plain_step_sim tasks pfn a s s' :
  ctx_done s = false → errorsChan_closed s = false →
  Plain.step tasks pfn a s = Some s' →
  step tasks (Plain.lift pfn) a s = Some s' ∧ is_cancel a = false ∧
  ctx_done s' = false ∧ errorsChan_closed s' = false.
Proof.
  intros Hctx Hec Hstep. unfold step, Plain.lift.
  destruct a; plain_cases Hstep; simpl; rewrite ?Hctx, ?Hec; simpl;
    rewrite ?bool_decide_eq_true_2 by done; done.
Qed.

Lemma plain_exec_sim tasks pfn acts s s' :
  ctx_done s = false → errorsChan_closed s = false →
  Plain.exec tasks pfn acts s = Some s' →
  exec tasks (Plain.lift pfn) acts s = Some s' ∧ (ACancel ∉ acts) ∧
  ctx_done s' = false ∧ errorsChan_closed s' = false.
Proof.
  revert s. induction acts as [|a acts IH]; intros s Hctx Hec Hex; simplify_eq/=.
  { split_and!; [done| |done..]. apply not_elem_of_nil. }
  destruct (Plain.step tasks pfn a s) as [s1|] eqn:Hstep; [|done].
  destruct (plain_step_sim _ _ _ _ _ Hctx Hec Hstep) as (Hs & Ha & Hctx1 & Hec1).
  destruct (IH _ Hctx1 Hec1 Hex) as (Hex' & Hno & Hctx' & Hec').
  rewrite Hs. split_and!; [done| |done..].
  apply not_elem_of_cons. split; [by destruct a|done].
Qed.

Lemma plain_spawn_invariants tasks maxWorkers g :
  Inv tasks (Plain.spawn (K:=K) (V:=V) (E:=E) tasks maxWorkers) ∧
  InvFn (λ _, g) (Plain.spawn tasks maxWorkers) ∧
  InvNoCancel tasks (Plain.spawn (K:=K) (V:=V) (E:=E) tasks maxWorkers) ∧
  InvOne (Plain.spawn (K:=K) (V:=V) (E:=E) tasks maxWorkers).
Proof.
  split_and!.
  - split; simpl; try done; try lia.
    intros _. exists [], 0%nat. simpl. by rewrite in_flight_replicate.
  - split; simpl; [done| |by intros ev ?%elem_of_nil].
    intros w x [-> _]%lookup_replicate. split; [done|]. by intros st' [= <-].
  - split; simpl; [done..| |done]. by intros w [? _]%lookup_replicate.
  - intros _. exists [], 0%nat. simpl. by rewrite in_flight_replicate.
Qed.

Lemma plain_spawn_workers tasks maxWorkers :
  tasks ≠ [] →
  (1 ≤ length (workers (Plain.spawn (K:=K) (V:=V) (E:=E) tasks maxWorkers))
   ≤ length tasks)%nat ∧
  (maxWorkers ≤ 1 →
   length (workers (Plain.spawn (K:=K) (V:=V) (E:=E) tasks maxWorkers)) = 1%nat).
Proof.
  intros Hne. unfold Plain.spawn, PlainPool.effective_workers, range_count.
  simpl. rewrite length_replicate.
  destruct tasks as [|t l]; [done|]. simpl length. lia.
Qed.

Lemma plain_exec_invariants tasks maxWorkers g acts s :
  Plain.exec tasks (Some g) acts (Plain.spawn tasks maxWorkers) = Some s →
  (Inv tasks s ∧ InvFn (λ _, g) s ∧ InvNoCancel tasks s) ∧
  errorsChan_closed s = false ∧
  (length acts ≤ measure tasks (Plain.spawn (K:=K) (V:=V) (E:=E) tasks maxWorkers))%nat ∧
  length (workers s)
  = length (workers (Plain.spawn (K:=K) (V:=V) (E:=E) tasks maxWorkers)).
Proof.
  intros Hex.
  destruct (plain_exec_sim tasks (Some g) acts (Plain.spawn tasks maxWorkers) s
              eq_refl eq_refl Hex) as (Hex' & Hno & _ & Hec).
  destruct (plain_spawn_invariants tasks maxWorkers g) as (HI & HF & HN & _).
  split; [by eapply exec_InvNoCancel|]. split; [done|]. split.
  - apply exec_measure in Hex'. lia.
  - by eapply exec_workers_length.
Qed.

Lemma in_flight_cases ws :
  in_flight ws = [] ∨ ∃ w e st, ws !! w = Some (WSend e st).
Proof.
  unfold in_flight. induction ws as [|x ws IH]; simpl; [by left|].
  destruct x as [st|e st|]; simpl.
  - destruct IH as [?|(w & e & st' & ?)]; [by left|]. right. by exists (S w), e, st'.
  - right. by exists 0%nat, e, st.
  - destruct IH as [?|(w & e & st' & ?)]; [by left|]. right. by exists (S w), e, st'.
Qed.

Lemma plain_progress tasks pfn s :
  Inv tasks s → InvNoCancel tasks s → panicked s = false →
  errorsChan_closed s = false → workers s ≠ [] → result tasks s = None →
  ∃ a s', Plain.step tasks pfn a s = Some s'.
Proof.
  intros HI HN Hp Hec Hws Hres. pose proof (result_None _ _ HI Hres) as Herrs.
  unfold Plain.step. rewrite Hp.
  destruct (tasksChan_closed s) eqn:Htc.
  - destruct (errorsChan s) as [|e q] eqn:Hchan.
    + destruct (in_flight_cases (workers s)) as [Hfl|(w & e & st & Hw)].
      * (* nothing is on its way: a task is still queued *)
        destruct (inv_outcomes _ _ HI Hp) as (reals & pad & He & Hpad & HR).
        destruct pad as [|pad]; [|destruct Hpad as [_ ?]; [done|congruence]].
        rewrite Hchan, Hfl in HR. simpl in HR, He.
        rewrite !app_nil_r in *. apply Permutation_length in HR.
        rewrite length_fmap in HR.
        pose proof (inv_queue _ _ HI Hp) as Hq.
        pose proof (inv_nc_closed _ _ HN Htc) as Hd.
        assert (tasksChan s ≠ []) as Hne.
        { intros Hnil. apply (f_equal length) in Hq.
          rewrite Hnil, queue_length in Hq by apply (inv_next _ _ HI).
          simpl in Hq. rewrite He in Herrs. lia. }
        assert (∃ x, workers s !! 0%nat = Some x) as [x Hx]
          by (destruct (workers s); [done|eauto]).
        exists (AWorkerRecv 0). rewrite Hx. destruct x as [st|e st|].
        -- destruct (tasksChan s) as [|[i t] q]; [eauto|]. destruct pfn; eauto.
        -- apply in_flight_sending in Hx. rewrite Hfl in Hx. simpl in Hx. lia.
        -- destruct (inv_nc_done _ _ HN _ Hx) as [_ ?]. congruence.
      * exists (AWorkerSend w). rewrite Hw.
        destruct (send_room _ _ _ _ _ HI Hp Hw) as [_ Hlen]. rewrite Hchan in Hlen.
        rewrite bool_decide_eq_true_2 by done. eauto.
    + exists ACollect. rewrite bool_decide_eq_true_2 by done. eauto.
  - destruct (tasks !! d_next s) as [t|] eqn:Ht.
    + exists ADispatchSend.
      rewrite bool_decide_eq_true_2 by (by eapply queue_room). eauto.
    + exists ADispatchEnd. eauto.
Qed.

Lemma plain_running (tasks : GoSlice T) maxWorkers pfn :
  elems tasks ≠ [] →
  Plain.RunWorkerPool tasks maxWorkers pfn
  = Running (Plain.spawn (elems tasks) maxWorkers).
Proof.
  intros Hne. unfold Plain.RunWorkerPool, len. destruct (elems tasks); [done|]. done.
Qed.

Lemma plain_log_calls g s :
  InvFn (λ _, g) s →
  Forall (λ ev, g (ev_task ev) (ev_store_in ev) = (ev_err ev, ev_store_out ev)) (log s).
Proof.
  intros HF. apply Forall_forall. intros ev Hev.
  exact (log_calls (λ _, g) s ev HF Hev).
Qed.

(** X12: the version without a context always runs between 1 and len(tasks)
    workers on a non-empty task list: 1 for maxWorkers <= 1 (zero and
    negative values included), len(tasks) for maxWorkers >= len(tasks). *)
Theorem plain_effective_workers (tasks : GoSlice T) maxWorkers :
  elems tasks ≠ [] →
  1 ≤ PlainPool.effective_workers (len tasks) maxWorkers ≤ len tasks ∧
  (maxWorkers ≤ 1 → PlainPool.effective_workers (len tasks) maxWorkers = 1) ∧
  (len tasks ≤ maxWorkers →
   PlainPool.effective_workers (len tasks) maxWorkers = len tasks) ∧
  Z.of_nat (length (workers (Plain.spawn (K:=K) (V:=V) (E:=E) (elems tasks) maxWorkers)))
  = PlainPool.effective_workers (len tasks) maxWorkers.
Proof.
  intros Hne. unfold Plain.spawn, PlainPool.effective_workers, range_count, len.
  simpl. rewrite length_replicate.
  destruct (elems tasks) as [|t l]; [done|]. simpl length. lia.
Qed.

(** X13: the version without a context, on a non-empty task list and for
    every maxWorkers: every schedule is finite, a call that has not returned
    can take a step, and the slice returned is not nil and holds, up to
    their order, exactly the values fn returned, fn having been called once
    on every task. *)
Theorem plain_pool_returns (tasks : GoSlice T) maxWorkers g :
  elems tasks ≠ [] →
  ∃ s0, Plain.RunWorkerPool tasks maxWorkers (Some g) = Running s0 ∧
    ∀ acts s, Plain.exec (elems tasks) (Some g) acts s0 = Some s →
      (length acts ≤ measure (elems tasks) s0)%nat ∧
      match result (elems tasks) s with
      | Some r =>
          is_nil r = false ∧
          elems r ≡ₚ ev_err <$> log s ∧
          ev_task <$> log s = elems tasks ∧
          Forall (λ ev, g (ev_task ev) (ev_store_in ev)
                        = (ev_err ev, ev_store_out ev)) (log s)
      | None => ∃ a s', Plain.step (elems tasks) (Some g) a s = Some s'
      end.
Proof.
  intros Hne. eexists. split; [by apply plain_running|]. intros acts s Hex.
  destruct (plain_exec_invariants _ _ _ _ _ Hex) as ((HI & HF & HN) & Hec & Hlen & Hws).
  split; [done|].
  pose proof (inv_no_panic _ _ HF) as Hp.
  assert (workers s ≠ []) as Hne'.
  { intros Hw.
    destruct (plain_spawn_workers (elems tasks) maxWorkers Hne)
      as [Hn _].
    rewrite <- Hws, Hw in Hn. simpl in Hn. lia. }
  destruct (result (elems tasks) s) as [r|] eqn:Hres.
  - apply result_Some in Hres as [-> Herrs]. simpl.
    destruct (no_cancel_all_real (elems tasks) s (≡ₚ)) as [Hperm Hlog]; try done.
    { apply Permutation_length. }
    { by apply (inv_outcomes _ _ HI). }
    split_and!; [done..| |by apply plain_log_calls].
    by rewrite (log_tasks _ _ HI), Hlog, take_ge.
  - by apply plain_progress.
Qed.

(** X14: the version without a context with maxWorkers <= 1 (zero and
    negative values included) returns the values of fn on the tasks in
    submission order, the single worker's store threaded through. *)
Theorem plain_one_worker_in_order (tasks : GoSlice T) maxWorkers g :
  maxWorkers ≤ 1 →
  match Plain.RunWorkerPool tasks maxWorkers (Some g) with
  | Returned r => elems r = seq_errs (λ _, g) ∅ (elems tasks)
  | Running s0 =>
      ∀ acts s, Plain.exec (elems tasks) (Some g) acts s0 = Some s →
        match result (elems tasks) s with
        | Some r => elems r = seq_errs (λ _, g) ∅ (elems tasks)
        | None => ∃ a s', Plain.step (elems tasks) (Some g) a s = Some s'
        end
  end.
Proof.
  intros Hmw. destruct (decide (elems tasks = [])) as [He|Hne].
  { unfold Plain.RunWorkerPool, len. rewrite He. done. }
  rewrite (plain_running _ _ _ Hne). intros acts s Hex.
  destruct (plain_spawn_workers (elems tasks) maxWorkers Hne)
    as [_ Hone]. specialize (Hone Hmw).
  destruct (plain_exec_sim (elems tasks) (Some g) acts
              (Plain.spawn (elems tasks) maxWorkers) s eq_refl eq_refl Hex)
    as (Hex' & Hno & _ & Hec).
  destruct (plain_spawn_invariants (elems tasks) maxWorkers g) as (HI0 & HF0 & HN0 & HO0).
  destruct (exec_one (elems tasks) (λ _, g) acts _ s Hno Hone) as
    [(HI & HF & HN & HO) Hlen]; [done|done|].
  pose proof (inv_no_panic _ _ HF) as Hp.
  destruct (result (elems tasks) s) as [r|] eqn:Hres.
  - apply result_Some in Hres as [-> Herrs]. simpl.
    destruct (no_cancel_all_real (elems tasks) s eq) as [Heq Hlog]; try done.
    { by intros r1 r2 ->. }
    { by destruct (workers s). }
    { by apply HO. }
    rewrite Heq, (chain_seq_errs (λ _, g) ∅);
      [|by apply one_worker_chain|apply (inv_nc_log _ _ HN)].
    by rewrite (log_tasks _ _ HI), Hlog, take_ge.
  - apply plain_progress; try done. by destruct (workers s).
Qed.

(** X15: for a non-empty task list and maxWorkers >= 1 both versions start
    from the same state, and every run of the version without a context is
    a run of the context-aware version, for the same fn ignoring its
    context, in which the context is never cancelled. *)
Theorem plain_runs_are_ctx_runs tasks maxWorkers pfn acts s :
  tasks ≠ [] → 1 ≤ maxWorkers →
  Plain.exec tasks pfn acts (Plain.spawn tasks maxWorkers) = Some s →
  Plain.spawn (K:=K) (V:=V) (E:=E) tasks maxWorkers = spawn false tasks maxWorkers ∧
  exec tasks (Plain.lift pfn) acts (spawn false tasks maxWorkers) = Some s ∧
  (ACancel ∉ acts).
Proof.
  intros Hne Hmw Hex.
  assert (Plain.spawn (K:=K) (V:=V) (E:=E) tasks maxWorkers
          = spawn false tasks maxWorkers) as Heq.
  { unfold Plain.spawn, spawn, effective_workers, PlainPool.effective_workers,
      Utils.Clamp. do 3 f_equal. destruct tasks; [done|]. simpl length. lia. }
  split; [done|]. rewrite <- Heq.
  destruct (plain_exec_sim tasks pfn acts (Plain.spawn tasks maxWorkers) s
              eq_refl eq_refl Hex) as (Hex' & Hno & _ & _). done.
Qed.

(** X16: the version without a context leaves no goroutine behind: in a
    state where no goroutine can take a step the call has returned, every
    worker has left its loop and the queue is closed and empty. *)
Theorem plain_quiescent tasks maxWorkers g acts s :
  tasks ≠ [] →
  Plain.exec tasks (Some g) acts (Plain.spawn tasks maxWorkers) = Some s →
  (∀ a, Plain.step tasks (Some g) a s = None) →
  is_Some (result tasks s) ∧ forallb is_done (workers s) = true ∧
  tasksChan_closed s = true ∧ tasksChan s = [].
Proof.
  intros Hne Hex Hstuck.
  destruct (plain_exec_invariants _ _ _ _ _ Hex) as ((HI & HF & HN) & Hec & _ & Hws).
  pose proof (inv_no_panic _ _ HF) as Hp.
  assert (workers s ≠ []) as Hne'.
  { intros Hw.
    destruct (plain_spawn_workers tasks maxWorkers Hne) as [Hn _].
    rewrite <- Hws, Hw in Hn. simpl in Hn. lia. }
  assert (is_Some (result tasks s)) as Hres.
  { destruct (result tasks s) eqn:Hr; [eauto|].
    destruct (plain_progress _ (Some g) _ HI HN Hp Hec Hne' Hr) as (a & s' & Hs).
    by rewrite (Hstuck a) in Hs. }
  assert (tasksChan_closed s = true) as Htc.
  { destruct (tasksChan_closed s) eqn:Htc; [done|].
    destruct (tasks !! d_next s) as [t|] eqn:Ht.
    - pose proof (Hstuck ADispatchSend) as Hs. unfold Plain.step in Hs.
      by rewrite Hp, Htc, Ht, bool_decide_eq_true_2 in Hs by (by eapply queue_room).
    - pose proof (Hstuck ADispatchEnd) as Hs. unfold Plain.step in Hs.
      by rewrite Hp, Htc, Ht in Hs. }
  assert (forallb is_done (workers s) = true) as Hall.
  { destruct (forallb is_done (workers s)) eqn:Hall; [done|].
    apply not_all_done in Hall as (w & x & Hw & Hx).
    destruct x as [st|e st|]; [| |done].
    - pose proof (Hstuck (AWorkerRecv w)) as Hs. unfold Plain.step in Hs.
      rewrite Hp, Hw, Htc in Hs. by destruct (tasksChan s) as [|[i t] q].
    - pose proof (Hstuck (AWorkerSend w)) as Hs. unfold Plain.step in Hs.
      destruct (send_room _ _ _ _ _ HI Hp Hw) as [_ Hlen].
      by rewrite Hp, Hw, bool_decide_eq_true_2 in Hs by done. }
  split_and!; [done..|].
  assert (∃ x, workers s !! 0%nat = Some x) as [x Hx]
    by (destruct (workers s); [done|eauto]).
  pose proof (all_done_lookup _ _ _ Hall Hx) as ->.
  by destruct (inv_nc_done _ _ HN _ Hx).
Qed.

End PoolFacts.

(** ** Errors are passed through *)


(** ** The claims at the inputs of the package's tests *)

Lemma fn_sum_increments b t (st : gmap string Z) :
  store_get (fn_sum b t st).2 "sum" = wrap64 (store_get st "sum" + 1).
Proof. unfold fn_sum, store_incr, store_get. simpl. by rewrite lookup_insert_eq. Qed.


Lemma effective_workers_nonpositive_witness :
  effective_workers 1 0 = 0 ∧
  effective_workers 1 0 ≠ 1 ∧
  workers (spawn (K:=string) (V:=Z) (E:=string) false [7] 0) = [] ∧
  PlainPool.effective_workers 1 0 = 1.
Proof.
  apply (effective_workers_nonpositive (K:=string) (V:=Z) (E:=string)
           false (Slice [7]) 0).
  - vm_compute. discriminate.
  - lia.
Defined.


Lemma empty_tasks_return_empty_witness :
  ∃ r, RunWorkerPool (T:=Z) (K:=string) (V:=Z) (E:=string)
         false NilSlice 10 None = Returned r ∧
    is_nil r = false ∧ elems r = [] ∧
    ∀ acts, run_log (RunWorkerPool (K:=string) (V:=Z) (E:=string)
                       false (NilSlice (A:=Z)) 10 None) [] None acts = Some [].
Proof.
  apply (empty_tasks_return_empty (T:=Z) (K:=string) (V:=Z) (E:=string)
           false NilSlice 10 None).
  reflexivity.
Defined.

Lemma fn_called_at_most_once_per_task_witness :
  ∃ l, run_log (RunWorkerPool false (Slice tasks_abc) 1 (Some fn_sum))
         tasks_abc (Some fn_sum) (schedule_cancel ++ [AWorkerRecv 0]) = Some l ∧
    (length l ≤ 3)%nat ∧
    NoDup (ev_index <$> l) ∧
    ∀ ev, ev ∈ l → tasks_abc !! ev_index ev = Some (ev_task ev).
Proof.
  eexists. split; [vm_compute; reflexivity|].
  apply (fn_called_at_most_once_per_task false (Slice tasks_abc) 1 (Some fn_sum)
           (schedule_cancel ++ [AWorkerRecv 0%nat])).
  vm_compute. reflexivity.
Defined.

Lemma worker_store_persists_witness :
  ∃ s, exec tasks_abc (Some fn_sum) schedule_abc (spawn false tasks_abc 1) = Some s ∧
    ∃ ev, log s !! 2%nat = Some ev ∧ ev_task ev = "c"%string ∧
      store_get (ev_store_in ev) "sum" = 2 ∧
      store_get (ev_store_out ev) "sum" = 3.
Proof.
  destruct (exec tasks_abc (Some fn_sum) schedule_abc (spawn false tasks_abc 1))
    as [s|] eqn:Hex; [|vm_compute in Hex; discriminate].
  exists s. split; [reflexivity|].
  destruct (worker_store_persists false tasks_abc 1 fn_sum schedule_abc s Hex)
    as [_ Hcount].
  assert (∃ ev, log s !! 2%nat = Some ev) as [ev Hev].
  { vm_compute in Hex. injection Hex as <-. simpl. eauto. }
  exists ev. split; [done|].
  destruct (Hcount (λ st, store_get st "sum") eq_refl eq_refl eq_refl
              fn_sum_increments 2%nat ev Hev) as (_ & Ht & Hin & Hout).
  split_and!; [|done..]. by injection Ht as <-.
Defined.



Lemma effective_workers_at_most_len_witness :
  effective_workers 2 100 ≤ 2 ∧
  (length (workers (spawn (K:=string) (V:=Z) (E:=string) false [1; 2] 100)) ≤ 2)%nat ∧
  (2 < 100 →
   effective_workers 2 100 = 2 ∧
   length (workers (spawn (K:=string) (V:=Z) (E:=string) false [1; 2] 100)) = 2%nat).
Proof.
  apply (effective_workers_at_most_len (K:=string) (V:=Z) (E:=string)
           false (Slice [1; 2]) 100).
  vm_compute. discriminate.
Defined.

(** C9 as stated fails: one worker has handled the first of two queued
    tasks when the context is cancelled; its select may still take the queue
    branch, and it then calls fn on the second task. *)
Lemma cancelled_worker_still_starts_task :
  ¬ no_start_after_cancel tasks_abc (Some fn_sum) (spawn false tasks_abc 1).
Proof.
  intros Hclaim.
  destruct (exec tasks_abc (Some fn_sum) schedule_cancel (spawn false tasks_abc 1))
    as [s|] eqn:Hex; [|vm_compute in Hex; discriminate].
  destruct (step tasks_abc (Some fn_sum) (AWorkerRecv 0) s) as [s'|] eqn:Hstep.
  - assert (ctx_done s = true) as Hdone
      by (vm_compute in Hex; by injection Hex as <-).
    pose proof (Hclaim _ _ _ _ Hex Hdone Hstep) as Hlog.
    vm_compute in Hex. injection Hex as <-.
    vm_compute in Hstep. injection Hstep as <-. discriminate Hlog.
  - vm_compute in Hex. injection Hex as <-. vm_compute in Hstep. discriminate.
Qed.

Lemma worker_returns_on_ctx_branch_witness :
  ∃ s, exec tasks_abc (Some fn_sum) schedule_cancel (spawn false tasks_abc 1) = Some s ∧
    ∃ s', step tasks_abc (Some fn_sum) (AWorkerCtx 0) s = Some s' ∧
      ctx_done s = true ∧ workers s' !! 0%nat = Some WDone ∧ log s' = log s.
Proof.
  destruct (exec tasks_abc (Some fn_sum) schedule_cancel (spawn false tasks_abc 1))
    as [s|] eqn:Hex; [|vm_compute in Hex; discriminate].
  exists s. split; [reflexivity|].
  destruct (worker_returns_on_ctx_branch false tasks_abc 1 fn_sum schedule_cancel s Hex)
    as (Hctx & _ & _).
  destruct (step tasks_abc (Some fn_sum) (AWorkerCtx 0) s) as [s'|] eqn:Hstep.
  - exists s'. split; [reflexivity|]. destruct (Hctx _ _ Hstep) as (? & ? & ? & _). done.
  - vm_compute in Hex. injection Hex as <-. vm_compute in Hstep. discriminate.
Defined.

Lemma one_worker_outcomes_in_order_witness :
  ∃ s, exec tasks_abc (Some fn_sum) schedule_abc (spawn false tasks_abc 1) = Some s ∧
    ∃ r, result tasks_abc s = Some r ∧ elems r = seq_errs fn_sum ∅ tasks_abc.
Proof.
  destruct (exec tasks_abc (Some fn_sum) schedule_abc (spawn false tasks_abc 1))
    as [s|] eqn:Hex; [|vm_compute in Hex; discriminate].
  exists s. split; [reflexivity|].
  assert (ACancel ∉ schedule_abc) as Hno.
  { intros Hin. vm_compute in Hin.
    repeat (apply elem_of_cons in Hin as [Hin|Hin]; [discriminate Hin|]).
    by apply elem_of_nil in Hin. }
  destruct (one_worker_outcomes_in_order (Slice tasks_abc) 1 fn_sum eq_refl
              schedule_abc s Hno Hex) as [_ Hthm].
  destruct (result (elems (Slice tasks_abc)) s) as [r|] eqn:Hres.
  - exists r. split; [done|exact Hthm].
  - vm_compute in Hex. injection Hex as <-. vm_compute in Hres. discriminate.
Defined.

(** ** [utils.Clamp] *)

(** X1: with minValue <= maxValue the result of Clamp lies in
    [minValue, maxValue]; a value in the range is returned as it is, a
    value below gives minValue and a value above gives maxValue. *)
Theorem Clamp_in_range (value minValue maxValue : Z) :
  minValue ≤ maxValue →
  minValue ≤ Utils.Clamp value minValue maxValue ≤ maxValue ∧
  (minValue ≤ value ≤ maxValue → Utils.Clamp value minValue maxValue = value) ∧
  (value ≤ minValue → Utils.Clamp value minValue maxValue = minValue) ∧
  (maxValue ≤ value → Utils.Clamp value minValue maxValue = maxValue).
Proof. unfold Utils.Clamp. lia. Qed.

(** X2: with minValue > maxValue Clamp returns maxValue whatever the value:
    the upper bound is applied last and wins. *)
Theorem Clamp_inverted_bounds (value minValue maxValue : Z) :
  maxValue < minValue →
  Utils.Clamp value minValue maxValue = maxValue.
Proof. unfold Utils.Clamp. lia. Qed.

(** X3: Clamp never returns more than maxValue, clamping twice is clamping
    once, and Clamp is monotone in the value. *)
Theorem Clamp_idempotent_monotone (value value' minValue maxValue : Z) :
  Utils.Clamp value minValue maxValue ≤ maxValue ∧
  Utils.Clamp (Utils.Clamp value minValue maxValue) minValue maxValue
  = Utils.Clamp value minValue maxValue ∧
  (value ≤ value' →
   Utils.Clamp value minValue maxValue ≤ Utils.Clamp value' minValue maxValue).
Proof. unfold Utils.Clamp. lia. Qed.

(** ** The further properties at concrete inputs *)

Ltac run_schedule Hex :=
  match goal with
  | |- ∃ s, ?e = Some s ∧ _ =>
      destruct e as [s|] eqn:Hex;
      [exists s; split; [reflexivity|]|vm_compute in Hex; discriminate Hex]
  end.

Lemma Clamp_in_range_witness :
  1 ≤ Utils.Clamp 100 1 2 ≤ 2 ∧
  (1 ≤ 100 ≤ 2 → Utils.Clamp 100 1 2 = 100) ∧
  (100 ≤ 1 → Utils.Clamp 100 1 2 = 1) ∧
  (2 ≤ 100 → Utils.Clamp 100 1 2 = 2).
Proof. apply (Clamp_in_range 100 1 2). lia. Defined.

Lemma Clamp_inverted_bounds_witness : Utils.Clamp 10 1 0 = 0.
Proof. apply (Clamp_inverted_bounds 10 1 0). lia. Defined.

Lemma effective_workers_positive_witness :
  effective_workers 3 2 = Z.min 3 2 ∧
  1 ≤ effective_workers 3 2 ≤ 2 ∧
  effective_workers 3 2 = PlainPool.effective_workers 3 2 ∧
  length (workers (spawn (K:=string) (V:=Z) (E:=string) false tasks_abc 2))
  = Z.to_nat (Z.min 3 2).
Proof.
  apply (effective_workers_positive (K:=string) (V:=Z) (E:=string)
           false (Slice tasks_abc) 2).
  - vm_compute. discriminate.
  - lia.
Defined.

Lemma sends_never_block_witness :
  ∃ s, exec tasks_abc (Some fn_sum) schedule_busy (spawn false tasks_abc 1) = Some s ∧
    is_Some (step tasks_abc (Some fn_sum) ADispatchSend s) ∧
    ∃ s', step tasks_abc (Some fn_sum) (AWorkerSend 0) s = Some s' ∧
          panicked s' = false ∧ errorsChan s' = errorsChan s ++ [None].
Proof.
  run_schedule Hex.
  destruct (sends_never_block false tasks_abc 1 fn_sum schedule_busy s Hex)
    as [Hd Hw].
  vm_compute in Hex. injection Hex as <-. split.
  - apply (Hd "b"%string); reflexivity.
  - eapply Hw. reflexivity.
Defined.

Lemma calls_are_a_prefix_witness :
  ∃ s, exec tasks_abc (Some fn_sum) (schedule_cancel ++ [AWorkerRecv 0])
         (spawn false tasks_abc 1) = Some s ∧
    ev_index <$> log s = seq 0 (length (log s)) ∧
    ev_task <$> log s = take (length (log s)) tasks_abc ∧
    (length (log s) ≤ d_next s ≤ 3)%nat.
Proof.
  run_schedule Hex.
  exact (calls_are_a_prefix false tasks_abc 1 (Some fn_sum) _ s Hex).
Defined.

Lemma returned_shape_witness :
  ∃ s, exec tasks_1_10 (Some fn_even) schedule_cancel_1_10
         (spawn false tasks_1_10 3) = Some s ∧
    ∃ r reals, result tasks_1_10 s = Some r ∧
      elems r = reals ++ replicate (10 - length (log s)) None ∧
      reals ≡ₚ ev_err <$> log s.
Proof.
  run_schedule Hex.
  destruct (result tasks_1_10 s) as [r|] eqn:Hres.
  - destruct (returned_shape false tasks_1_10 3 fn_even _ s r Hex Hres)
      as (reals & He & HR).
    by exists r, reals.
  - vm_compute in Hex. injection Hex as <-. vm_compute in Hres. discriminate.
Defined.

Lemma quiescent_all_returned_witness :
  ∃ s, exec tasks_abc (Some fn_sum) schedule_abc (spawn false tasks_abc 1) = Some s ∧
    (∀ a, is_cancel a = false → step tasks_abc (Some fn_sum) a s = None) ∧
    is_Some (result tasks_abc s) ∧
    forallb is_done (workers s) = true ∧
    tasksChan_closed s = true ∧ errorsChan_closed s = true.
Proof.
  run_schedule Hex.
  assert (∀ a, is_cancel a = false → step tasks_abc (Some fn_sum) a s = None)
    as Hstuck.
  { vm_compute in Hex. injection Hex as <-.
    intros [| | | |[|w]|[|w]|[|w]| |] Ha; try done; by destruct w. }
  split; [done|].
  exact (quiescent_all_returned false tasks_abc 1 fn_sum schedule_abc s Hex Hstuck).
Defined.

Lemma one_worker_cancelled_order_witness :
  ∃ s, exec tasks_abc (Some fn_sum) schedule_cancel_return
         (spawn false tasks_abc 1) = Some s ∧
    ∃ r, result tasks_abc s = Some r ∧
      elems r = (ev_err <$> log s) ++ replicate (3 - length (log s)) None ∧
      chain fn_sum ∅ (log s) ∧
      ev_task <$> log s = take (length (log s)) tasks_abc.
Proof.
  run_schedule Hex.
  destruct (result tasks_abc s) as [r|] eqn:Hres.
  - exists r. split; [done|].
    exact (one_worker_cancelled_order false tasks_abc 1 fn_sum _ s r eq_refl Hex Hres).
  - vm_compute in Hex. injection Hex as <-. vm_compute in Hres. discriminate.
Defined.

Lemma returned_is_final_witness :
  ∃ s, exec tasks_abc (Some fn_sum) schedule_early_return
         (spawn false tasks_abc 1) = Some s ∧
    ∃ r s', result tasks_abc s = Some r ∧
      exec tasks_abc (Some fn_sum) [AWorkerRecv 0; AWaitClose] s = Some s' ∧
      result tasks_abc s' = Some r.
Proof.
  run_schedule Hex.
  destruct (result tasks_abc s) as [r|] eqn:Hres;
    [|vm_compute in Hex; injection Hex as <-; vm_compute in Hres; discriminate].
  destruct (exec tasks_abc (Some fn_sum) [AWorkerRecv 0; AWaitClose] s)
    as [s'|] eqn:Hex';
    [|vm_compute in Hex; injection Hex as <-; vm_compute in Hex'; discriminate].
  exists r, s'. split_and!; [done..|].
  exact (returned_is_final tasks_abc (Some fn_sum) _ s s' r Hres Hex').
Defined.

Lemma nil_fn_never_returns_witness :
  ∃ s, exec (K:=string) (V:=Z) (E:=string) tasks_abc None schedule_busy
         (spawn false tasks_abc 1) = Some s ∧
    panicked s = true ∧
    log s = [] ∧ errs s = [] ∧ result tasks_abc s = None ∧
    ((∀ a, is_cancel a = false → step tasks_abc None a s = None) →
     panicked s = true).
Proof.
  run_schedule Hex. split.
  { vm_compute in Hex. by injection Hex as <-. }
  apply (nil_fn_never_returns (K:=string) (V:=Z) (E:=string)
           tasks_abc 1 schedule_busy s); [discriminate|lia| |exact Hex].
  intros Hin. vm_compute in Hin.
  repeat (apply elem_of_cons in Hin as [Hin|Hin]; [discriminate Hin|]).
  by apply elem_of_nil in Hin.
Defined.

Lemma plain_effective_workers_witness :
  1 ≤ PlainPool.effective_workers 3 0 ≤ 3 ∧
  (0 ≤ 1 → PlainPool.effective_workers 3 0 = 1) ∧
  (3 ≤ 0 → PlainPool.effective_workers 3 0 = 3) ∧
  Z.of_nat (length (workers (Plain.spawn (K:=string) (V:=Z) (E:=string) tasks_abc 0)))
  = PlainPool.effective_workers 3 0.
Proof.
  apply (plain_effective_workers (K:=string) (V:=Z) (E:=string) (Slice tasks_abc) 0).
  vm_compute. discriminate.
Defined.

Lemma plain_pool_returns_witness :
  ∃ s, Plain.exec tasks_abc (Some plain_fn_sum) plain_schedule_abc
         (Plain.spawn tasks_abc 0) = Some s ∧
    ∃ r, result tasks_abc s = Some r ∧
      is_nil r = false ∧
      elems r ≡ₚ ev_err <$> log s ∧
      ev_task <$> log s = tasks_abc.
Proof.
  run_schedule Hex.
  destruct (plain_pool_returns (Slice tasks_abc) 0 plain_fn_sum)
    as (s0 & Hrun & Hall); [discriminate|].
  injection Hrun as <-. destruct (Hall _ _ Hex) as [_ Hres]. simpl in Hres.
  destruct (result tasks_abc s) as [r|] eqn:Hr.
  - exists r. destruct Hres as (? & ? & ? & _). done.
  - vm_compute in Hex. injection Hex as <-. vm_compute in Hr. discriminate.
Defined.

Lemma plain_one_worker_in_order_witness :
  ∃ s, Plain.exec tasks_abc (Some plain_fn_sum) plain_schedule_abc
         (Plain.spawn tasks_abc 0) = Some s ∧
    ∃ r, result tasks_abc s = Some r ∧
      elems r = seq_errs (λ _, plain_fn_sum) ∅ tasks_abc.
Proof.
  run_schedule Hex.
  pose proof (plain_one_worker_in_order (Slice tasks_abc) 0 plain_fn_sum
                ltac:(lia) plain_schedule_abc s Hex) as Hthm.
  destruct (result (elems (Slice tasks_abc)) s) as [r|] eqn:Hr.
  - by exists r.
  - vm_compute in Hex. injection Hex as <-. vm_compute in Hr. discriminate.
Defined.

Lemma plain_runs_are_ctx_runs_witness :
  ∃ s, Plain.exec tasks_abc (Some plain_fn_sum) plain_schedule_abc
         (Plain.spawn tasks_abc 1) = Some s ∧
    Plain.spawn (K:=string) (V:=Z) (E:=string) tasks_abc 1 = spawn false tasks_abc 1 ∧
    exec tasks_abc (Plain.lift (Some plain_fn_sum)) plain_schedule_abc
      (spawn false tasks_abc 1) = Some s ∧
    (ACancel ∉ plain_schedule_abc).
Proof.
  run_schedule Hex.
  apply (plain_runs_are_ctx_runs tasks_abc 1 (Some plain_fn_sum)
           plain_schedule_abc s); [discriminate|lia|exact Hex].
Defined.

Lemma plain_quiescent_witness :
  ∃ s, Plain.exec tasks_abc (Some plain_fn_sum) plain_schedule_abc
         (Plain.spawn tasks_abc 0) = Some s ∧
    (∀ a, Plain.step tasks_abc (Some plain_fn_sum) a s = None) ∧
    is_Some (result tasks_abc s) ∧ forallb is_done (workers s) = true ∧
    tasksChan_closed s = true ∧ tasksChan s = [].
Proof.
  run_schedule Hex.
  assert (∀ a, Plain.step tasks_abc (Some plain_fn_sum) a s = None) as Hstuck.
  { vm_compute in Hex. injection Hex as <-.
    intros [| | | |[|w]|[|w]|[|w]| |]; try done; by destruct w. }
  split; [done|].
  apply (plain_quiescent tasks_abc 0 plain_fn_sum plain_schedule_abc s);
    [discriminate|exact Hex|exact Hstuck].
Defined.
